(** * Lifecycle of the orchestrator node: orchestrator/node/node.go

    A shallow embedding of [New], the [register...Service] functions, the
    synchronization gate of [registerConsensusService], the signal handler
    installed by [Start], [Close] and [Debounce], followed by the properties
    of the lifecycle and synchronization layer.

    Conventions.
    - A Go [error] is an [option Error]: [None] is [nil].
    - A Go [int] / [time.Duration] is a [Z].
    - Calls into other packages (storage, chain watchers, RPC server, user
      confirmation) are answered by a record of outcomes, [Externals]: the
      embedding fixes what node.go does with every possible answer.
    - Global logging through [log] becomes an explicit list of entries. *)

From Stdlib Require Import ZArith Lia Bool List.
From stdpp Require Import base option list strings.
Import ListNotations.

Open Scope string_scope.
Open Scope list_scope.
Open Scope Z_scope.

(* ===================================================================== *)
(** ** Data model *)
(* ===================================================================== *)

(** The concrete type of a service; the registry is keyed by it. *)
Inductive Variant := VanguardChain | PandoraChain | Consensus | RPC.

Definition Variant_eqb (a b : Variant) : bool :=
  match a, b with
  | VanguardChain, VanguardChain | PandoraChain, PandoraChain
  | Consensus, Consensus | RPC, RPC => true
  | _, _ => false
  end.

Inductive Error :=
  | ExternalError (msg : string)
  | Wrap (cause : Error) (msg : string)          (* errors.Wrap(err, msg) *)
  | ServiceNotFoundError (v : Variant)
  | DuplicateServiceError (v : Variant).

(** [context.Context] values: a context handed in by the caller, or one
    derived from a parent by [context.WithCancel]. *)
Inductive Ctx :=
  | CallerCtx (id : nat)
  | WithCancel (parent : Ctx).

Fixpoint Ctx_eqb (a b : Ctx) : bool :=
  match a, b with
  | CallerCtx i, CallerCtx j => Nat.eqb i j
  | WithCancel p, WithCancel q => Ctx_eqb p q
  | _, _ => false
  end.

(** [Done cancelled c]: the channel [c.Done()] is closed once the cancel
    functions of the contexts in [cancelled] have been called; cancelling a
    context cancels its descendants, never its parent. *)
Fixpoint Done (cancelled : list Ctx) (c : Ctx) : bool :=
  existsb (Ctx_eqb c) cancelled ||
  match c with
  | CallerCtx _ => false
  | WithCancel p => Done cancelled p
  end.

(** [*cli.Context]: the embedded [Context] and the flags node.go reads. *)
Record CliContext := {
  cli_Context : Ctx;
  DataDirFlag : string;
  ClearDB : bool;
  ForceClearDB : bool;
  BoltMMapInitialSizeFlag : Z;
  VanguardGRPCEndpoint : string;
  PandoraRPCEndpoint : string;
  IPCPathFlag : string;
  HTTPEnabledFlag : bool;
  HTTPListenAddrFlag : string;
  HTTPPortFlag : Z;
  WSEnabledFlag : bool;
  WSListenAddrFlag : string;
  WSPortFlag : Z
}.

(** A handle returned by [db.NewDB(ctx, dbPath, &kv.Config{InitialMMapSize})]. *)
Record Database := {
  db_ctx : Ctx;
  db_path : string;
  InitialMMapSize : Z
}.

(** The services node.go builds, each with the arguments it was built with.
    A [db.Database] interface value may be nil: [option Database]. *)
Inductive Service :=
  | VanguardService (ctx : Ctx) (vanguardGRPCUrl : string) (db : option Database)
  | PandoraService (ctx : Ctx) (pandoraRPCUrl namespace : string)
                   (db : option Database)
  | RPCService (ctx : Ctx) (ConsensusInfoFeed : Service) (Db : option Database)
               (IPCPath : string) (HTTPEnable : bool) (HTTPHost : string)
               (HTTPPort : Z) (WSEnable : bool) (WSHost : string) (WSPort : Z)
  | ConsensusService (ctx : Ctx) (db : option Database).

Definition variant_of (s : Service) : Variant :=
  match s with
  | VanguardService _ _ _ => VanguardChain
  | PandoraService _ _ _ _ => PandoraChain
  | RPCService _ _ _ _ _ _ _ _ _ _ => RPC
  | ConsensusService _ _ => Consensus
  end.

(** The context a service was constructed with. *)
Definition service_ctx (s : Service) : Ctx :=
  match s with
  | VanguardService c _ _ => c
  | PandoraService c _ _ _ => c
  | RPCService c _ _ _ _ _ _ _ _ _ => c
  | ConsensusService c _ => c
  end.

Inductive Level := InfoLevel | WarningLevel | ErrorLevel | DebugLevel.

Inductive FieldValue :=
  | FStr (s : string)
  | FInt (n : Z)
  | FBool (b : bool)
  | FErr (e : Error).

Record LogEntry := {
  level : Level;
  fields : list (string * FieldValue);
  message : string
}.

Definition logf (l : Level) (fs : list (string * FieldValue)) (m : string)
  : LogEntry := {| level := l; fields := fs; message := m |}.

(* ===================================================================== *)
(** ** The service registry (package shared) *)
(* ===================================================================== *)

(** Modelled from the spec: [shared.ServiceRegistry] and its operations
    [NewServiceRegistry], [RegisterService] and [FetchService] are not part
    of node.go.  Spec 3 and 4.1: an ordered sequence of (variant, service)
    pairs in insertion order; [Register] fails with [DuplicateServiceError]
    when the variant is present and appends otherwise; [Fetch] returns the
    registered instance and fails with [ServiceNotFoundError] when absent. *)
Definition ServiceRegistry := list (Variant * Service).

Definition NewServiceRegistry : ServiceRegistry := [].

Definition lookup_variant (r : ServiceRegistry) (v : Variant) : option Service :=
  match List.find (fun p => Variant_eqb (fst p) v) r with
  | Some p => Some (snd p)
  | None => None
  end.

Definition FetchService (r : ServiceRegistry) (v : Variant) : Service + Error :=
  match lookup_variant r v with
  | Some s => inl s
  | None => inr (ServiceNotFoundError v)
  end.

Definition RegisterService (r : ServiceRegistry) (s : Service)
  : ServiceRegistry * option Error :=
  match lookup_variant r (variant_of s) with
  | Some _ => (r, Some (DuplicateServiceError (variant_of s)))
  | None => (r ++ [(variant_of s, s)], None)
  end.

Definition registered (r : ServiceRegistry) (v : Variant) : bool :=
  match lookup_variant r v with Some _ => true | None => false end.

(* ===================================================================== *)
(** ** Node construction *)
(* ===================================================================== *)

(** Answers of the collaborators outside node.go. *)
Record Externals := {
  (* db.NewDB, first and second call *)
  NewDB_first : option Error;
  NewDB_second : option Error;
  (* cmd.ConfirmAction(actionText, deniedText) *)
  ConfirmAction : bool * option Error;
  (* d.Close() and d.ClearDB() *)
  db_Close : option Error;
  db_ClearDB : option Error;
  (* vanguardchain.NewService, pandorachain.NewService, rpc.NewService *)
  vanguardchain_NewService : option Error;
  pandorachain_NewService : option Error;
  rpc_NewService : option Error;
  (* filepath.Join, fileutil.IpcEndpoint and two constants *)
  filepath_Join : string -> string -> string;
  IpcEndpoint : string -> string -> string;
  OrchestratorNodeDbDirName : string;
  DefaultIpcPath : string
}.

(** [OrchestratorNode], without [lock] and [stop], which belong to the
    concurrent part below.  [cancel] is the cancel function of [ctx]. *)
Record OrchestratorNode := {
  cliCtx : CliContext;
  ctx : Ctx;
  services : ServiceRegistry;
  db : option Database
}.

Definition set_db (o : OrchestratorNode) (d : option Database) : OrchestratorNode :=
  {| cliCtx := cliCtx o; ctx := ctx o; services := services o; db := d |}.

Definition set_services (o : OrchestratorNode) (r : ServiceRegistry)
  : OrchestratorNode :=
  {| cliCtx := cliCtx o; ctx := ctx o; services := r; db := db o |}.

(** A method of the node: the node and the log after the call, and the
    value returned. *)
Definition Method (A : Type) : Type :=
  OrchestratorNode -> list LogEntry -> A * OrchestratorNode * list LogEntry.

(** [o.services.RegisterService(svc)] as a method on the node. *)
Definition register (svc : Service) : Method (option Error) :=
  fun o lg =>
    let '(r, err) := RegisterService (services o) svc in
    (err, set_services o r, lg).

Section Construction.

Variable E : Externals.

(** startDB, lines 83-127. *)
Definition startDB (cli : CliContext) : Method (option Error) :=
  fun o lg =>
    let baseDir := DataDirFlag cli in
    let dbPath := filepath_Join E baseDir (OrchestratorNodeDbDirName E) in
    let clearDB := ClearDB cli in
    let forceClearDB := ForceClearDB cli in
    let lg := lg ++ [logf InfoLevel [("database-path", FStr dbPath)] "Checking DB"] in
    let d := {| db_ctx := ctx o; db_path := dbPath;
                InitialMMapSize := BoltMMapInitialSizeFlag cli |} in
    match NewDB_first E with
    | Some err => (Some err, o, lg)
    | None =>
      let '(clearDBConfirmed, err) :=
        if clearDB && negb forceClearDB then ConfirmAction E else (false, None) in
      match err with
      | Some err => (Some err, o, lg)
      | None =>
        if clearDBConfirmed || forceClearDB then
          let lg := lg ++ [logf WarningLevel [] "Removing database"] in
          match db_Close E with
          | Some err => (Some (Wrap err "could not close db prior to clearing"), o, lg)
          | None =>
            match db_ClearDB E with
            | Some err => (Some (Wrap err "could not clear database"), o, lg)
            | None =>
              match NewDB_second E with
              | Some err => (Some (Wrap err "could not create new database"), o, lg)
              | None => (None, set_db o (Some d), lg)
              end
            end
          end
        else (None, set_db o (Some d), lg)
      end
    end.

(** registerVanguardChainService, lines 130-146.  The gRPC dial closure
    handed to [vanguardchain.NewService] is not represented. *)
Definition registerVanguardChainService (cli : CliContext) : Method (option Error) :=
  fun o lg =>
    let vanguardGRPCUrl := VanguardGRPCEndpoint cli in
    match vanguardchain_NewService E with
    | Some _ => (None, o, lg)                                   (* return nil *)
    | None =>
      let svc := VanguardService (ctx o) vanguardGRPCUrl (db o) in
      let lg := lg ++ [logf InfoLevel [("vanguardGRPCUrl", FStr vanguardGRPCUrl)]
                            "Registered vanguard chain service"] in
      register svc o lg
    end.

(** registerPandoraChainService, lines 149-166.  The RPC dial closure and
    the fresh header cache are not represented. *)
Definition registerPandoraChainService (cli : CliContext) : Method (option Error) :=
  fun o lg =>
    let pandoraRPCUrl := PandoraRPCEndpoint cli in
    let namespace := "eth" in
    match pandorachain_NewService E with
    | Some _ => (None, o, lg)                                   (* return nil *)
    | None =>
      let svc := PandoraService (ctx o) pandoraRPCUrl namespace (db o) in
      let lg := lg ++ [logf InfoLevel [("pandoraHttpUrl", FStr pandoraRPCUrl)]
                            "Registered pandora chain service"] in
      register svc o lg
    end.

(** registerRPCService, lines 247-290. *)
Definition registerRPCService (cli : CliContext) : Method (option Error) :=
  fun o lg =>
    match FetchService (services o) VanguardChain with
    | inr err => (Some err, o, lg)
    | inl consensusInfoFeed =>
      let '(ipcapiURL, lg) :=
        if negb (String.eqb (IPCPathFlag cli) "") then
          let ipcFilePath := IPCPathFlag cli in
          let ipcapiURL :=
            IpcEndpoint E (filepath_Join E ipcFilePath (DefaultIpcPath E)) "" in
          (ipcapiURL,
           lg ++ [logf InfoLevel [("ipcFilePath", FStr ipcFilePath);
                                  ("ipcPath", FStr ipcapiURL)] "ipc file path"])
        else ("", lg) in
      let httpEnable := HTTPEnabledFlag cli in
      let httpListenAddr := HTTPListenAddrFlag cli in
      let httpPort := HTTPPortFlag cli in
      let wsEnable := WSEnabledFlag cli in
      let wsListenerAddr := WSListenAddrFlag cli in
      let wsPort := WSPortFlag cli in
      let lg := lg ++ [logf DebugLevel
                         [("httpEnable", FBool httpEnable);
                          ("httpListenAddr", FStr httpListenAddr);
                          ("httpPort", FInt httpPort);
                          ("wsEnable", FBool wsEnable);
                          ("wsListenerAddr", FStr wsListenerAddr);
                          ("wsPort", FInt wsPort)] "rpc server configuration"] in
      match rpc_NewService E with
      | Some _ => (None, o, lg)                                 (* return nil *)
      | None =>
        let svc := RPCService (ctx o) consensusInfoFeed (db o) ipcapiURL
                     httpEnable httpListenAddr httpPort
                     wsEnable wsListenerAddr wsPort in
        let lg := lg ++ [logf InfoLevel [] "Registered RPC service"] in
        register svc o lg
      end
    end.

End Construction.

(* ===================================================================== *)
(** ** The synchronization gate and the consensus service *)
(* ===================================================================== *)

(** The two channels the gate selects on.  A run of the gate is driven by
    the sequence of channels on which [select] received, in order. *)
Inductive Feed := vanguardHeadersChan | vanguardConsensusInfoChan.

(** What one pass through the body of the [for] loop (lines 210-235) does
    with the two locks: the new locks, the entries logged, and whether the
    loop is left ([break]). *)
Definition gate_body (vanguardHeaderLock vanguardConsensusLock : bool) (f : Feed)
  : bool * bool * list LogEntry * bool :=
  match f with
  | vanguardHeadersChan =>
    if negb vanguardHeaderLock
    then (vanguardHeaderLock, vanguardConsensusLock, [], false)      (* continue *)
    else
      let vanguardHeaderLock := false in
      let lg := [logf InfoLevel [("context", FStr "vanguardHeadersChan")]
                      "received signal about vanguard headers"] in
      if negb vanguardHeaderLock && negb vanguardConsensusLock
      then (vanguardHeaderLock, vanguardConsensusLock,
            lg ++ [logf InfoLevel [("context", FStr "consensus service lock")]
                        "unchained all locks"], true)
      else (vanguardHeaderLock, vanguardConsensusLock, lg, false)
  | vanguardConsensusInfoChan =>
    if negb vanguardConsensusLock
    then (vanguardHeaderLock, vanguardConsensusLock, [], false)      (* continue *)
    else
      let vanguardConsensusLock := false in
      let lg := [logf InfoLevel [("context", FStr "vanguardHeadersChan")]
                      "received signal about vanguard consensus info"] in
      if negb vanguardHeaderLock && negb vanguardConsensusLock
      then (vanguardHeaderLock, vanguardConsensusLock,
            lg ++ [logf InfoLevel [("context", FStr "consensus service lock")]
                        "unchained all locks"], true)
      else (vanguardHeaderLock, vanguardConsensusLock, lg, false)
  end.

(** Outcome of the loop on a finite sequence of deliveries: it was left
    after [deliveries] receptions, or it consumed them all and is blocked
    in [select] with the locks as given. *)
Inductive GateResult :=
  | Unchained (deliveries : nat) (lg : list LogEntry)
  | Waiting (vanguardHeaderLock vanguardConsensusLock : bool)
            (deliveries : nat) (lg : list LogEntry).

Fixpoint gate_loop (hl cl : bool) (n : nat) (lg : list LogEntry) (evs : list Feed)
  : GateResult :=
  match evs with
  | [] => Waiting hl cl n lg
  | f :: evs' =>
    let '(hl', cl', lg', leave) := gate_body hl cl f in
    if leave then Unchained (S n) (lg ++ lg')
    else gate_loop hl' cl' (S n) (lg ++ lg') evs'
  end.

(** The gate as [registerConsensusService] starts it: both locks armed. *)
Definition gate (evs : list Feed) : GateResult := gate_loop true true 0%nat [] evs.

(** How a call of [registerConsensusService] ends. *)
Inductive ConsensusOutcome :=
  | Abandoned (err : Error)                  (* a fetch failed: logged, return *)
  | BlockedInGate (vanguardHeaderLock vanguardConsensusLock : bool)
  | Constructed (svc : Service) (deliveries : nat) (registerErr : option Error).

(** registerConsensusService, lines 168-244, run on the deliveries [evs]. *)
Definition registerConsensusService (cli : CliContext) (evs : list Feed)
  : Method ConsensusOutcome :=
  fun o lg =>
    let services_ := services o in
    match FetchService services_ VanguardChain with
    | inr err =>
      (Abandoned err, o,
       lg ++ [logf ErrorLevel [("err", FErr err)] "Consensus service not registered"])
    | inl vanguardChain =>
      match FetchService services_ PandoraChain with
      | inr err =>
        (Abandoned err, o,
         lg ++ [logf ErrorLevel [("err", FErr err)] "Consensus service not registered"])
      | inl pandoraChain =>
        match gate evs with
        | Waiting hl cl _ lg' => (BlockedInGate hl cl, o, lg ++ lg')
        | Unchained n lg' =>
          let svc := ConsensusService (cli_Context cli) (db o) in
          let '(err, o, lg) := register svc o (lg ++ lg') in
          match err with
          | Some e =>
            (Constructed svc n err, o,
             lg ++ [logf ErrorLevel [("err", FErr e)] "Consensus service not registered"])
          | None => (Constructed svc n err, o, lg)
          end
        end
      end
    end.

(** What [New] hands back: the pair it returns, the log, and whether the
    goroutine running [registerConsensusService] was started. *)
Record NewResult := {
  new_node : option OrchestratorNode;
  new_err : option Error;
  new_log : list LogEntry;
  consensus_goroutine : bool
}.

Definition failed (err : Error) (lg : list LogEntry) : NewResult :=
  {| new_node := None; new_err := Some err; new_log := lg;
     consensus_goroutine := false |}.

(** New, lines 49-80. *)
Definition New (E : Externals) (cli : CliContext) : NewResult :=
  let registry := NewServiceRegistry in
  let ctx := WithCancel (cli_Context cli) in
  let orchestrator :=
    {| cliCtx := cli; ctx := ctx; services := registry; db := None |} in
  let '(err, orchestrator, lg) := startDB E (cliCtx orchestrator) orchestrator [] in
  match err with
  | Some err => failed err lg
  | None =>
    let '(err, orchestrator, lg) := registerVanguardChainService E cli orchestrator lg in
    match err with
    | Some err => failed err lg
    | None =>
      let '(err, orchestrator, lg) := registerPandoraChainService E cli orchestrator lg in
      match err with
      | Some err => failed err lg
      | None =>
        let '(err, orchestrator, lg) := registerRPCService E cli orchestrator lg in
        match err with
        | Some err => failed err lg
        | None =>
          {| new_node := Some orchestrator; new_err := None; new_log := lg;
             consensus_goroutine := true |}
        end
      end
    end
  end.

(** The node after [New] and after the goroutine it started has run on the
    deliveries [evs]: what the caller of [New] got, the node then, and how
    the goroutine ended (if it was started). *)
Definition New_then_consensus (E : Externals) (cli : CliContext) (evs : list Feed)
  : NewResult * option (ConsensusOutcome * OrchestratorNode * list LogEntry) :=
  let r := New E cli in
  match new_node r with
  | Some o =>
    if consensus_goroutine r
    then (r, Some (registerConsensusService cli evs o (new_log r)))
    else (r, None)
  | None => (r, None)
  end.

(** The contexts cancelled once [Close] has called [b.cancel()]. *)
Definition cancel (o : OrchestratorNode) (cancelled : list Ctx) : list Ctx :=
  ctx o :: cancelled.

(* ===================================================================== *)
(** ** The signal handler installed by Start *)
(* ===================================================================== *)

(** Where the goroutine of lines 305-319 is: before [signal.Notify], blocked
    in the first [<-sigc] (line 309), blocked in [<-sigc] inside the loop
    with counter [i] (line 313), or past the loop, in [panic] (line 318). *)
Inductive HandlerPc :=
  | HNotify
  | HFirst
  | HLoop (i : Z)
  | HPanic.

(** Entering or re-entering [for i := ...; i > 0; i--]: the test. *)
Definition for_test (i : Z) : HandlerPc := if i >? 0 then HLoop i else HPanic.

Record HandlerOut := {
  next : HandlerPc;
  logged : list LogEntry;
  go_Close : bool
}.

(** What the handler does when a signal is received on [sigc], up to its
    next blocking point. *)
Definition on_signal (pc : HandlerPc) : HandlerOut :=
  match pc with
  | HFirst =>
    {| next := for_test 10;
       logged := [logf InfoLevel [] "Got interrupt, shutting down..."];
       go_Close := true |}
  | HLoop i =>
    {| next := for_test (i - 1);
       logged := if i >? 1
                 then [logf InfoLevel [("times", FInt (i - 1))]
                            "Already shutting down, interrupt more to panic"]
                 else [];
       go_Close := false |}
  | HNotify | HPanic => {| next := pc; logged := []; go_Close := false |}
  end.

(** The handler after [n] received signals, from its first blocking point. *)
Fixpoint handler_after (n : nat) : HandlerPc :=
  match n with
  | O => HFirst
  | S n' => next (on_signal (handler_after n'))
  end.

(** What the handler does on the signal it receives after [n] earlier ones
    (the signal number [n + 1]). *)
Definition signal_effect (n : nat) : HandlerOut :=
  on_signal (handler_after n).

Definition panicked (pc : HandlerPc) : bool :=
  match pc with HPanic => true | _ => false end.

(* ===================================================================== *)
(** ** Start, Close and the handler as concurrent threads *)
(* ===================================================================== *)

(** Threads interleave at the granularity of the statements below; [o.lock]
    and [o.stop] are the only blocking points. *)

(** The thread running [Start]: before [o.lock.Lock()] (294), before
    [o.services.StartAll()] (300), before [o.lock.Unlock()] (303), before
    [go func()] (305), blocked in [<-stop] (322), returned. *)
Inductive StartPc := SLock | SStartAll | SUnlock | SGo | SWait | SReturned.

(** A thread running [Close]: before [b.lock.Lock()] (327), before
    [b.services.StopAll()] (331), before [b.cancel()] (332), before
    [close(b.stop)] (333), before the deferred [b.lock.Unlock()] (328),
    returned; or dead, in the panic raised by closing a closed channel. *)
Inductive ClosePc :=
  | CLock | CStopAll | CCancel | CCloseStop | CUnlock | CDone | CPanicked.

Inductive Tid := TStart | THandler | TClose (k : nat).

(** How the process ended, if it did: a panic in a thread, or the default
    action of a termination signal nobody is notified of. *)
Inductive Exit := Panic (t : Tid) | Killed.

Record Machine := {
  lock : option Tid;          (* o.lock: free, or held by a thread *)
  stop_closed : bool;         (* o.stop has been closed *)
  sigc : bool;                (* a signal is buffered in sigc (capacity 1) *)
  StartAll_calls : nat;
  StopAll_calls : nat;
  cancel_calls : nat;
  stop_closes : nat;          (* executions of close(b.stop) that succeeded *)
  start_pc : StartPc;
  handler : option HandlerPc; (* None: goroutine not started yet *)
  closers : list ClosePc;     (* one entry per invocation of Close *)
  exit : option Exit
}.

Definition init : Machine :=
  {| lock := None; stop_closed := false; sigc := false;
     StartAll_calls := 0; StopAll_calls := 0; cancel_calls := 0;
     stop_closes := 0; start_pc := SLock; handler := None; closers := [];
     exit := None |}.

Definition set_lock (v : option Tid) (m : Machine) : Machine :=
  {| lock := v; stop_closed := stop_closed m; sigc := sigc m;
     StartAll_calls := StartAll_calls m; StopAll_calls := StopAll_calls m;
     cancel_calls := cancel_calls m; stop_closes := stop_closes m;
     start_pc := start_pc m; handler := handler m; closers := closers m;
     exit := exit m |}.

Definition close_stop (m : Machine) : Machine :=
  {| lock := lock m; stop_closed := true; sigc := sigc m;
     StartAll_calls := StartAll_calls m; StopAll_calls := StopAll_calls m;
     cancel_calls := cancel_calls m; stop_closes := S (stop_closes m);
     start_pc := start_pc m; handler := handler m; closers := closers m;
     exit := exit m |}.

Definition set_sigc (v : bool) (m : Machine) : Machine :=
  {| lock := lock m; stop_closed := stop_closed m; sigc := v;
     StartAll_calls := StartAll_calls m; StopAll_calls := StopAll_calls m;
     cancel_calls := cancel_calls m; stop_closes := stop_closes m;
     start_pc := start_pc m; handler := handler m; closers := closers m;
     exit := exit m |}.

Definition call_StartAll (m : Machine) : Machine :=
  {| lock := lock m; stop_closed := stop_closed m; sigc := sigc m;
     StartAll_calls := S (StartAll_calls m); StopAll_calls := StopAll_calls m;
     cancel_calls := cancel_calls m; stop_closes := stop_closes m;
     start_pc := start_pc m; handler := handler m; closers := closers m;
     exit := exit m |}.

Definition call_StopAll (m : Machine) : Machine :=
  {| lock := lock m; stop_closed := stop_closed m; sigc := sigc m;
     StartAll_calls := StartAll_calls m; StopAll_calls := S (StopAll_calls m);
     cancel_calls := cancel_calls m; stop_closes := stop_closes m;
     start_pc := start_pc m; handler := handler m; closers := closers m;
     exit := exit m |}.

Definition call_cancel (m : Machine) : Machine :=
  {| lock := lock m; stop_closed := stop_closed m; sigc := sigc m;
     StartAll_calls := StartAll_calls m; StopAll_calls := StopAll_calls m;
     cancel_calls := S (cancel_calls m); stop_closes := stop_closes m;
     start_pc := start_pc m; handler := handler m; closers := closers m;
     exit := exit m |}.

Definition set_start_pc (pc : StartPc) (m : Machine) : Machine :=
  {| lock := lock m; stop_closed := stop_closed m; sigc := sigc m;
     StartAll_calls := StartAll_calls m; StopAll_calls := StopAll_calls m;
     cancel_calls := cancel_calls m; stop_closes := stop_closes m;
     start_pc := pc; handler := handler m; closers := closers m;
     exit := exit m |}.

Definition set_handler (h : option HandlerPc) (m : Machine) : Machine :=
  {| lock := lock m; stop_closed := stop_closed m; sigc := sigc m;
     StartAll_calls := StartAll_calls m; StopAll_calls := StopAll_calls m;
     cancel_calls := cancel_calls m; stop_closes := stop_closes m;
     start_pc := start_pc m; handler := h; closers := closers m;
     exit := exit m |}.

Definition set_closers (l : list ClosePc) (m : Machine) : Machine :=
  {| lock := lock m; stop_closed := stop_closed m; sigc := sigc m;
     StartAll_calls := StartAll_calls m; StopAll_calls := StopAll_calls m;
     cancel_calls := cancel_calls m; stop_closes := stop_closes m;
     start_pc := start_pc m; handler := handler m; closers := l;
     exit := exit m |}.

Definition set_exit (e : option Exit) (m : Machine) : Machine :=
  {| lock := lock m; stop_closed := stop_closed m; sigc := sigc m;
     StartAll_calls := StartAll_calls m; StopAll_calls := StopAll_calls m;
     cancel_calls := cancel_calls m; stop_closes := stop_closes m;
     start_pc := start_pc m; handler := handler m; closers := closers m;
     exit := e |}.

Definition is_free (l : option Tid) : bool :=
  match l with None => true | Some _ => false end.

(** One step of the thread running [Start]; a blocked thread does not move. *)
Definition step_Start (m : Machine) : Machine :=
  match start_pc m with
  | SLock =>
    if is_free (lock m) then set_start_pc SStartAll (set_lock (Some TStart) m) else m
  | SStartAll => set_start_pc SUnlock (call_StartAll m)
  | SUnlock => set_start_pc SGo (set_lock None m)
  | SGo => set_start_pc SWait (set_handler (Some HNotify) m)
  | SWait => if stop_closed m then set_start_pc SReturned m else m
  | SReturned => m
  end.

(** One step of the [k]-th invocation of [Close]. *)
Definition step_Close (k : nat) (m : Machine) : Machine :=
  match closers m !! k with
  | None => m
  | Some CLock =>
    if is_free (lock m)
    then set_closers (<[k := CStopAll]> (closers m)) (set_lock (Some (TClose k)) m)
    else m
  | Some CStopAll => set_closers (<[k := CCancel]> (closers m)) (call_StopAll m)
  | Some CCancel => set_closers (<[k := CCloseStop]> (closers m)) (call_cancel m)
  | Some CCloseStop =>
    if stop_closed m
    then (* close of a closed channel panics; the deferred Unlock runs
            while the panic unwinds, then the process dies *)
         set_exit (Some (Panic (TClose k)))
           (set_closers (<[k := CPanicked]> (closers m)) (set_lock None m))
    else set_closers (<[k := CUnlock]> (closers m)) (close_stop m)
  | Some CUnlock => set_closers (<[k := CDone]> (closers m)) (set_lock None m)
  | Some CDone | Some CPanicked => m
  end.

(** One step of the handler goroutine: install the notification, or take
    the buffered signal and run [on_signal]. *)
Definition step_Handler (m : Machine) : Machine :=
  match handler m with
  | None => m
  | Some HNotify => set_handler (Some HFirst) m
  | Some pc =>
    if sigc m then
      let out := on_signal pc in
      let m := set_sigc false m in
      let m := set_handler (Some (next out)) m in
      let m := if go_Close out then set_closers (closers m ++ [CLock]) m else m in
      if panicked (next out) then set_exit (Some (Panic THandler)) m else m
    else m
  end.

(** What can happen next: a thread is scheduled, the operating system
    delivers a termination signal, or some caller invokes [Close]. *)
Inductive Label := Run (t : Tid) | Signal | CallClose.

Definition notified (h : option HandlerPc) : bool :=
  match h with
  | None | Some HNotify => false
  | Some _ => true
  end.

Definition step (l : Label) (m : Machine) : Machine :=
  match exit m with
  | Some _ => m                                  (* the process is gone *)
  | None =>
    match l with
    | Run TStart => step_Start m
    | Run THandler => step_Handler m
    | Run (TClose k) => step_Close k m
    | Signal => if notified (handler m) then set_sigc true m
                else set_exit (Some Killed) m
    | CallClose => set_closers (closers m ++ [CLock]) m
    end
  end.

Fixpoint run (sched : list Label) (m : Machine) : Machine :=
  match sched with
  | [] => m
  | l :: sched' => run sched' (step l m)
  end.

(** Counting the invocations of [Close] that are at given places. *)
Fixpoint count_if (f : ClosePc -> bool) (l : list ClosePc) : nat :=
  match l with
  | [] => 0
  | pc :: l' => (if f pc then 1 else 0) + count_if f l'
  end.

(** Between [Lock] and the deferred [Unlock]. *)
Definition in_critical (pc : ClosePc) : bool :=
  match pc with
  | CStopAll | CCancel | CCloseStop | CUnlock => true
  | CLock | CDone | CPanicked => false
  end.

Definition past_StopAll (pc : ClosePc) : bool :=
  match pc with
  | CCancel | CCloseStop | CUnlock | CDone | CPanicked => true
  | CLock | CStopAll => false
  end.

Definition past_cancel (pc : ClosePc) : bool :=
  match pc with
  | CCloseStop | CUnlock | CDone | CPanicked => true
  | CLock | CStopAll | CCancel => false
  end.

(** [close(b.stop)] was executed and did not panic. *)
Definition past_close (pc : ClosePc) : bool :=
  match pc with
  | CUnlock | CDone => true
  | _ => false
  end.

Definition is_CallClose (l : Label) : bool :=
  match l with CallClose => true | _ => false end.

(** The only invocation of [Close] is the handler's: nobody else calls it. *)
Definition handler_only (sched : list Label) : bool :=
  negb (existsb is_CallClose sched).

(** Let the first invocation of [Close] run, then [Start]. *)
Definition drain : list Label :=
  [Run (TClose 0); Run (TClose 0); Run (TClose 0); Run (TClose 0);
   Run (TClose 0); Run TStart].

(* ===================================================================== *)
(** ** Debounce *)
(* ===================================================================== *)

(** Debounce is run against a timeline: when each event becomes receivable
    on [eventsChan], when the channel is closed, when [ctx.Done()] is
    closed.  Times and durations are integers (nanoseconds).  Receiving,
    re-arming the timer and running the handler take no time; [select]
    sleeps until the earliest moment at which one of its cases is ready. *)

Section DebounceModel.

(** The dynamic values sent on the channel; [None] is the nil interface,
    which is also what a receive from a closed channel yields. *)
Variable V : Type.

Definition iface : Type := option V.

Record Timeline := {
  startAt : Z;                    (* Debounce is called *)
  sends : list (Z * iface);       (* the events, in channel order *)
  closeAt : option Z;             (* close(eventsChan), if ever *)
  doneAt : option Z               (* cancellation of ctx, if ever *)
}.

Inductive Case := CaseEvent | CaseTimer | CaseDone.

(** [select] picks any ready case.  The choice is left to [rank]: of the
    ready cases the one of least rank is taken (the earlier in the [select]
    statement on equal ranks). *)
Definition better (rank : Case -> nat) (a b : Case) : Case :=
  if (rank b <? rank a)%nat then b else a.

Definition choose (rank : Case -> nat) (ready : list Case) : Case :=
  match ready with
  | [] => CaseTimer
  | c :: cs => fold_left (better rank) cs c
  end.

(** The moment from which a source is ready, seen from [now]. *)
Definition from_now (now : Z) (t : option Z) : option Z :=
  match t with Some t => Some (Z.max now t) | None => None end.

Definition earliest (a : Z) (b : option Z) : Z :=
  match b with Some b => Z.min a b | None => a end.

Definition ready_at (wake : Z) (t : option Z) (c : Case) : list Case :=
  match t with
  | Some t => if t <=? wake then [c] else []
  | None => []
  end.

Inductive Status :=
  | Returned          (* Debounce returned *)
  | Blocked           (* blocked for ever in [range eventsChan] *)
  | Running.          (* still executing when the fuel ran out *)

Record Result := {
  status : Status;
  calls : list (Z * iface);       (* handler invocations: time, argument *)
  clock : Z
}.

(** Where Debounce is: at [for event := range eventsChan] (line 343), or at
    the top of the inner loop (line 346) with [event] as given. *)
Inductive Loc := AtRange | AtSelect (event : iface).

Variable interval : Z.
Variable tl : Timeline.
Variable rank : nat -> Case -> nat.   (* the choice made by the n-th select *)

(** When the channel is next ready for a receive: the next event, or the
    close once the events are consumed. *)
Definition chan_ready (q : list (Z * iface)) : option Z :=
  match q with
  | (t, _) :: _ => Some t
  | [] => closeAt tl
  end.

(** [time.NewTimer(d)] fires after [d], at once when [d <= 0]. *)
Definition NewTimer (now : Z) : Z := now + Z.max 0 interval.

Fixpoint debounce_from (fuel : nat) (loc : Loc) (now : Z)
         (q : list (Z * iface)) (cs : list (Z * iface)) : Result :=
  match fuel with
  | O => {| status := Running; calls := cs; clock := now |}
  | S fuel' =>
    match loc with
    | AtRange =>
      match q with
      | (t, v) :: q' => debounce_from fuel' (AtSelect v) (Z.max now t) q' cs
      | [] =>
        match closeAt tl with
        | Some c => {| status := Returned; calls := cs; clock := Z.max now c |}
        | None => {| status := Blocked; calls := cs; clock := now |}
        end
      end
    | AtSelect event =>
      let timer := NewTimer now in
      let tE := from_now now (chan_ready q) in
      let tD := from_now now (doneAt tl) in
      let wake := earliest (earliest timer tE) tD in
      let ready := ready_at wake tE CaseEvent ++ ready_at wake (Some timer) CaseTimer
                   ++ ready_at wake tD CaseDone in
      match choose (rank fuel') ready with
      | CaseEvent =>
        match q with
        | (_, v) :: q' => debounce_from fuel' (AtSelect v) wake q' cs
        | [] => debounce_from fuel' (AtSelect None) wake [] cs
        end
      | CaseTimer => debounce_from fuel' AtRange wake q (cs ++ [(wake, event)])
      | CaseDone => {| status := Returned; calls := cs; clock := wake |}
      end
    end
  end.

(** Debounce, lines 337-361, for [fuel] loop iterations. *)
Definition Debounce (fuel : nat) : Result :=
  debounce_from fuel AtRange (startAt tl) (sends tl) [].

End DebounceModel.

Arguments Build_Timeline {V}.
Arguments startAt {V}.
Arguments sends {V}.
Arguments closeAt {V}.
Arguments doneAt {V}.
Arguments Build_Result {V}.
Arguments status {V}.
Arguments calls {V}.
Arguments clock {V}.
Arguments AtRange {V}.
Arguments AtSelect {V}.
Arguments chan_ready {V}.
Arguments debounce_from {V}.
Arguments Debounce {V}.


(** [Start] up to the installed handler, then [k] signals, each taken by
    the handler before the next arrives; no invocation of [Close] is ever
    scheduled (its [StopAll] hangs). *)
Definition boot : list Label :=
  [Run TStart; Run TStart; Run TStart; Run TStart; Run THandler].

Fixpoint signals (k : nat) : list Label :=
  match k with
  | O => []
  | S k' => signals k' ++ [Signal; Run THandler]
  end.

(** Both feeds are accounted for: a lock is cleared or its feed occurs. *)
Definition satisfied_by (hl cl : bool) (evs : list Feed) : Prop :=
  (hl = false \/ In vanguardHeadersChan evs) /\
  (cl = false \/ In vanguardConsensusInfoChan evs).

(** The variants registered, in order, each with the context its service
    was constructed with. *)
Definition contexts_of (r : ServiceRegistry) : list (Variant * Ctx) :=
  map (fun p => (fst p, service_ctx (snd p))) r.

(** Number of [WithCancel] derivations above the caller's context. *)
Fixpoint depth (c : Ctx) : nat :=
  match c with
  | CallerCtx _ => 0
  | WithCancel p => S (depth p)
  end.

(** A command line, and collaborators that all succeed, or of which one
    constructor fails. *)
Definition cli0 : CliContext :=
  {| cli_Context := CallerCtx 0;
     DataDirFlag := "/data";
     ClearDB := false;
     ForceClearDB := false;
     BoltMMapInitialSizeFlag := 0;
     VanguardGRPCEndpoint := "127.0.0.1:4000";
     PandoraRPCEndpoint := "http://127.0.0.1:8545";
     IPCPathFlag := "";
     HTTPEnabledFlag := true;
     HTTPListenAddrFlag := "127.0.0.1";
     HTTPPortFlag := 7877;
     WSEnabledFlag := false;
     WSListenAddrFlag := "127.0.0.1";
     WSPortFlag := 7878 |}.

Definition with_constructors (vanguard pandora rpc : option Error) : Externals :=
  {| NewDB_first := None;
     NewDB_second := None;
     ConfirmAction := (false, None);
     db_Close := None;
     db_ClearDB := None;
     vanguardchain_NewService := vanguard;
     pandorachain_NewService := pandora;
     rpc_NewService := rpc;
     filepath_Join := fun a b => String.append a (String.append "/" b);
     IpcEndpoint := fun a _ => a;
     OrchestratorNodeDbDirName := "orchestrator";
     DefaultIpcPath := "orchestrator.ipc" |}.

Definition all_succeed : Externals := with_constructors None None None.

Definition vanguard_fails : Externals :=
  with_constructors (Some (ExternalError "vanguard: dial failed")) None None.

Definition pandora_fails : Externals :=
  with_constructors None (Some (ExternalError "pandora: dial failed")) None.

Definition rpc_fails : Externals :=
  with_constructors None None (Some (ExternalError "rpc: listen failed")).

Definition empty_node : OrchestratorNode :=
  {| cliCtx := cli0; ctx := WithCancel (CallerCtx 0);
     services := NewServiceRegistry; db := None |}.

(** The thread running [Start] is between its [Lock] and its [Unlock]. *)
Definition holds_lock (pc : StartPc) : bool :=
  match pc with SStartAll | SUnlock => true | _ => false end.

(** What holds in every state the threads can reach. *)
Record Inv (m : Machine) : Prop := {
  inv_start : lock m = Some TStart <-> holds_lock (start_pc m) = true;
  inv_handler : lock m <> Some THandler;
  inv_closer : forall k pc, closers m !! k = Some pc ->
               (in_critical pc = true <-> lock m = Some (TClose k));
  inv_owner : forall k, lock m = Some (TClose k) -> (k < length (closers m))%nat;
  inv_StopAll : StopAll_calls m = count_if past_StopAll (closers m);
  inv_cancel : cancel_calls m = count_if past_cancel (closers m);
  inv_closes : stop_closes m = count_if past_close (closers m);
  inv_stop : stop_closes m = if stop_closed m then 1%nat else 0%nat;
  inv_panic : forall k, closers m !! k = Some CPanicked ->
              exit m = Some (Panic (TClose k)) /\ stop_closed m = true;
  inv_StartAll : StartAll_calls m = match start_pc m with
                                    | SLock | SStartAll => 0%nat
                                    | _ => 1%nat
                                    end
}.

(** What holds besides when [Close] is only ever invoked by the handler:
    there is no invocation before the handler took its first signal and one
    from then on, and a handler exists only once [Start] is past its
    critical section. *)
Record HandlerInv (m : Machine) : Prop := {
  hinv_closers : match handler m with
                 | None | Some HNotify | Some HFirst => closers m = []
                 | Some (HLoop _) | Some HPanic => length (closers m) = 1%nat
                 end;
  hinv_start : match handler m with
               | None => start_pc m <> SWait /\ start_pc m <> SReturned
               | Some _ => start_pc m = SWait \/ start_pc m = SReturned
               end
}.

(** One invocation of [Close] run to its end; two, one after the other;
    and two at once, the second trying the lock while the first holds it. *)
Definition Close_once : list Label :=
  [CallClose; Run (TClose 0); Run (TClose 0); Run (TClose 0); Run (TClose 0);
   Run (TClose 0)].

Definition Close_twice : list Label :=
  Close_once ++
  [CallClose; Run (TClose 1); Run (TClose 1); Run (TClose 1); Run (TClose 1)].

Definition Close_concurrently : list Label :=
  [CallClose; CallClose; Run (TClose 0); Run (TClose 1); Run (TClose 0);
   Run (TClose 1); Run (TClose 0); Run (TClose 0); Run (TClose 0);
   Run (TClose 1); Run (TClose 1); Run (TClose 1); Run (TClose 1)].

(** [Start], the handler, one signal. *)
Definition Start_then_signal : list Label := boot ++ [Signal; Run THandler].

Section DebounceInputs.

Context {V : Type}.

(** A burst: each event comes after the previous one, [prev] to start with,
    and less than [interval] later. *)
Fixpoint burst (interval prev : Z) (q : list (Z * iface V)) : Prop :=
  match q with
  | [] => True
  | (t, _) :: q' => prev <= t /\ t - prev < interval /\ burst interval t q'
  end.

(** Nothing happens on a source up to and including the moment [t]. *)
Definition quiet_through (t : Z) (source : option Z) : Prop :=
  match source with
  | None => True
  | Some t' => t < t'
  end.

End DebounceInputs.

(** The example of the spec: events at 0, 10 and 20 ms, interval 50 ms. *)
Definition ms (n : Z) : Z := n * 1000000.

Definition three_events : Timeline nat :=
  {| startAt := 0;
     sends := [(ms 0, Some 1%nat); (ms 10, Some 2%nat); (ms 20, Some 3%nat)];
     closeAt := None;
     doneAt := None |}.

(** Two bursts, 180 ms apart; the channel is closed at 400 ms. *)
Definition two_bursts : Timeline nat :=
  {| startAt := 0;
     sends := [(ms 0, Some 1%nat); (ms 10, Some 2%nat); (ms 20, Some 3%nat);
               (ms 200, Some 4%nat); (ms 210, Some 5%nat)];
     closeAt := Some (ms 400);
     doneAt := None |}.

(** An event at 0, the channel closed at 10 ms, before the timer of 50 ms
    fires; no cancellation. *)
Definition closed_while_pending : Timeline nat :=
  {| startAt := 0;
     sends := [(ms 0, Some 1%nat)];
     closeAt := Some (ms 10);
     doneAt := None |}.

(** No event at all; the context cancelled at 5 ms. *)
Definition cancelled_while_idle : Timeline nat :=
  {| startAt := 0; sends := []; closeAt := None; doneAt := Some (ms 5) |}.

(** The node [New] returns when the construction of the pandora chain
    service has failed. *)
Definition degraded_node : OrchestratorNode :=
  match new_node (New pandora_fails cli0) with
  | Some o => o
  | None => empty_node
  end.

(* ===================================================================== *)
(** ** Vocabulary for the properties of node construction *)
(* ===================================================================== *)

(** The node as [New] builds it before any step has run. *)
Definition initial_node (cli : CliContext) : OrchestratorNode :=
  {| cliCtx := cli; ctx := WithCancel (cli_Context cli);
     services := NewServiceRegistry; db := None |}.

(** The handle [startDB] stores in the node [o] when it succeeds. *)
Definition startDB_handle (E : Externals) (cli : CliContext) (o : OrchestratorNode)
  : Database :=
  {| db_ctx := ctx o;
     db_path := filepath_Join E (DataDirFlag cli) (OrchestratorNodeDbDirName E);
     InitialMMapSize := BoltMMapInitialSizeFlag cli |}.

Definition is_nil (e : option Error) : bool :=
  match e with None => true | Some _ => false end.

(** [startDB] gets as far as removing the database: the storage opened,
    and the removal is forced, or requested and confirmed without error. *)
Definition removes_database (E : Externals) (cli : CliContext) : bool :=
  is_nil (NewDB_first E) &&
  (ForceClearDB cli ||
   (ClearDB cli && fst (ConfirmAction E) && is_nil (snd (ConfirmAction E)))).

(** The same collaborators, with another answer to the confirmation. *)
Definition with_ConfirmAction (c : bool * option Error) (E : Externals) : Externals :=
  {| NewDB_first := NewDB_first E;
     NewDB_second := NewDB_second E;
     ConfirmAction := c;
     db_Close := db_Close E;
     db_ClearDB := db_ClearDB E;
     vanguardchain_NewService := vanguardchain_NewService E;
     pandorachain_NewService := pandorachain_NewService E;
     rpc_NewService := rpc_NewService E;
     filepath_Join := filepath_Join E;
     IpcEndpoint := IpcEndpoint E;
     OrchestratorNodeDbDirName := OrchestratorNodeDbDirName E;
     DefaultIpcPath := DefaultIpcPath E |}.

(** The error [startDB] returns to [New]. *)
Definition startDB_err (E : Externals) (cli : CliContext) : option Error :=
  fst (fst (startDB E cli (initial_node cli) [])).

(** The storage handle a service was constructed with. *)
Definition service_db (s : Service) : option Database :=
  match s with
  | VanguardService _ _ d => d
  | PandoraService _ _ _ d => d
  | RPCService _ _ d _ _ _ _ _ _ _ => d
  | ConsensusService _ d => d
  end.

(** The consensus-info feed an RPC service was configured with. *)
Definition ConsensusInfoFeed_of (s : Service) : option Service :=
  match s with
  | RPCService _ feed _ _ _ _ _ _ _ _ => Some feed
  | _ => None
  end.

(** The gate is left on these deliveries. *)
Definition unchained (evs : list Feed) : bool :=
  match gate evs with Unchained _ _ => true | Waiting _ _ _ _ => false end.

(** The log a run of the gate leaves. *)
Definition gate_log (r : GateResult) : list LogEntry :=
  match r with
  | Unchained _ lg => lg
  | Waiting _ _ _ lg => lg
  end.

(** The command line [cli0] with the two flags about clearing set as given. *)
Definition with_flags (clear force : bool) : CliContext :=
  {| cli_Context := cli_Context cli0;
     DataDirFlag := DataDirFlag cli0;
     ClearDB := clear;
     ForceClearDB := force;
     BoltMMapInitialSizeFlag := BoltMMapInitialSizeFlag cli0;
     VanguardGRPCEndpoint := VanguardGRPCEndpoint cli0;
     PandoraRPCEndpoint := PandoraRPCEndpoint cli0;
     IPCPathFlag := IPCPathFlag cli0;
     HTTPEnabledFlag := HTTPEnabledFlag cli0;
     HTTPListenAddrFlag := HTTPListenAddrFlag cli0;
     HTTPPortFlag := HTTPPortFlag cli0;
     WSEnabledFlag := WSEnabledFlag cli0;
     WSListenAddrFlag := WSListenAddrFlag cli0;
     WSPortFlag := WSPortFlag cli0 |}.

(** The services [New] constructs on the node [o] left by startDB. *)
Definition vanguard_of (cli : CliContext) (o : OrchestratorNode) : Service :=
  VanguardService (ctx o) (VanguardGRPCEndpoint cli) (db o).

Definition pandora_of (cli : CliContext) (o : OrchestratorNode) : Service :=
  PandoraService (ctx o) (PandoraRPCEndpoint cli) "eth" (db o).

Definition rpc_of (E : Externals) (cli : CliContext) (o : OrchestratorNode) : Service :=
  RPCService (ctx o) (vanguard_of cli o) (db o)
    (if negb (String.eqb (IPCPathFlag cli) "")
     then IpcEndpoint E (filepath_Join E (IPCPathFlag cli) (DefaultIpcPath E)) ""
     else "")
    (HTTPEnabledFlag cli) (HTTPListenAddrFlag cli) (HTTPPortFlag cli)
    (WSEnabledFlag cli) (WSListenAddrFlag cli) (WSPortFlag cli).

Definition registered_by_New (E : Externals) (cli : CliContext)
    (o : OrchestratorNode) : ServiceRegistry :=
  (VanguardChain, vanguard_of cli o)
  :: (if is_nil (pandorachain_NewService E)
      then [(PandoraChain, pandora_of cli o)] else [])
  ++ (if is_nil (rpc_NewService E) then [(RPC, rpc_of E cli o)] else []).

(** The node [New] returns when every collaborator succeeds. *)
Definition healthy_node : OrchestratorNode :=
  match new_node (New all_succeed cli0) with
  | Some o => o
  | None => empty_node
  end.

(** The other of the two feeds. *)
Definition other (f : Feed) : Feed :=
  match f with
  | vanguardHeadersChan => vanguardConsensusInfoChan
  | vanguardConsensusInfoChan => vanguardHeadersChan
  end.

Definition Feed_eqb (a b : Feed) : bool :=
  match a, b with
  | vanguardHeadersChan, vanguardHeadersChan
  | vanguardConsensusInfoChan, vanguardConsensusInfoChan => true
  | _, _ => false
  end.

(** The entry logged when the lock of a feed is cleared (lines 217-218 and
    225-226; both carry the context "vanguardHeadersChan"). *)
Definition received (f : Feed) : LogEntry :=
  match f with
  | vanguardHeadersChan =>
    logf InfoLevel [("context", FStr "vanguardHeadersChan")]
         "received signal about vanguard headers"
  | vanguardConsensusInfoChan =>
    logf InfoLevel [("context", FStr "vanguardHeadersChan")]
         "received signal about vanguard consensus info"
  end.

(** The entry logged when the loop is left (lines 231-232). *)
Definition unchained_all : LogEntry :=
  logf InfoLevel [("context", FStr "consensus service lock")] "unchained all locks".

(** The locks with the one of [f] cleared. *)
Definition armed_except (f : Feed) : bool * bool :=
  match f with
  | vanguardHeadersChan => (false, true)
  | vanguardConsensusInfoChan => (true, false)
  end.

(** The node after [New] with every collaborator succeeding and after the
    goroutine has registered the consensus service. *)
Definition complete_node : OrchestratorNode :=
  snd (fst (registerConsensusService cli0
              [vanguardHeadersChan; vanguardConsensusInfoChan] healthy_node [])).

(** [Start] run from its first statement to its return. *)
Definition Start_alone : list Label :=
  [Run TStart; Run TStart; Run TStart; Run TStart; Run TStart].

(** [Start] takes the lock while an invocation of [Close] is waiting. *)
Definition Start_holds_lock : list Label := [CallClose; Run TStart; Run (TClose 0)].

(** What holds of [Start] and the handler in every reachable state: [Start]
    returns only once the stop channel is closed, and the handler exists
    only once [Start] is blocked on the stop channel or has returned. *)
Record StartInv (m : Machine) : Prop := {
  sinv_returned : start_pc m = SReturned -> stop_closed m = true;
  sinv_handler : handler m <> None -> start_pc m = SWait \/ start_pc m = SReturned
}.

(** No invocation of [Close] has died in a panic. *)
Definition no_Close_panic (m : Machine) : Prop :=
  forall k, exit m <> Some (Panic (TClose k)).

Section DebounceBursts.

Context {V : Type}.

(** A burst: its first event and the events that follow it. *)
Definition Burst : Type := (Z * iface V) * list (Z * iface V).

Definition events_of (b : Burst) : list (Z * iface V) := fst b :: snd b.

Definition first_at (b : Burst) : Z := fst (fst b).

(** When the timer fires for a burst, and the event the handler gets. *)
Definition fired_at (interval : Z) (b : Burst) : Z :=
  fst (List.last (snd b) (fst b)) + interval.

Definition latest_of (b : Burst) : iface V := snd (List.last (snd b) (fst b)).

(** Bursts one after the other: the first event of each comes at [from] or
    later, and later than the timer of the burst before fired. *)
Fixpoint separated (interval from : Z) (bs : list Burst) : Prop :=
  match bs with
  | [] => True
  | b :: bs' =>
    from <= first_at b /\ burst interval (first_at b) (snd b) /\
    match bs' with
    | [] => True
    | b' :: _ => fired_at interval b < first_at b'
    end /\
    separated interval (fired_at interval b) bs'
  end.

(** The moment the last timer fires. *)
Fixpoint last_fired (interval from : Z) (bs : list Burst) : Z :=
  match bs with
  | [] => from
  | b :: bs' => last_fired interval (fired_at interval b) bs'
  end.

Fixpoint all_events (bs : list Burst) : list (Z * iface V) :=
  match bs with
  | [] => []
  | b :: bs' => events_of b ++ all_events bs'
  end.

(** Loop iterations Debounce needs for the bursts. *)
Fixpoint iterations (bs : list Burst) : nat :=
  match bs with
  | [] => 0
  | b :: bs' => (length (snd b) + 2 + iterations bs')%nat
  end.

(** Events at strictly increasing times after [prev]. *)
Fixpoint spaced (prev : Z) (q : list (Z * iface V)) : Prop :=
  match q with
  | [] => True
  | (t, _) :: q' => prev < t /\ spaced t q'
  end.

End DebounceBursts.

(** The bursts of [two_bursts]. *)
Definition the_two_bursts : list (@Burst nat) :=
  [((ms 0, Some 1%nat), [(ms 10, Some 2%nat); (ms 20, Some 3%nat)]);
   ((ms 200, Some 4%nat), [(ms 210, Some 5%nat)])].

(** The three events of the spec's example, the context cancelled at 60 ms,
    before the timer set at 20 ms fires. *)
Definition cancelled_in_window : Timeline nat :=
  {| startAt := 0;
     sends := [(ms 0, Some 1%nat); (ms 10, Some 2%nat); (ms 20, Some 3%nat)];
     closeAt := None;
     doneAt := Some (ms 60) |}.

(** Proof steps used more than once. *)

(** Case analysis on the scrutinee of a [match] in the goal or in a
    hypothesis. *)
Ltac break_match :=
  match goal with
  | |- context [match ?x with _ => _ end] => destruct x eqn:?
  | H : context [match ?x with _ => _ end] |- _ => destruct x eqn:?
  end.

(** Decomposing hypotheses about which feeds occur in a list. *)
Ltac feeds :=
  repeat match goal with
  | H : _ /\ _ |- _ => destruct H
  | H : _ \/ _ |- _ => destruct H
  | H : False |- _ => destruct H
  | H : In _ [] |- _ => destruct H
  | H : In _ (_ :: _) |- _ => destruct H
  | H : true = false |- _ => discriminate H
  | H : false = true |- _ => discriminate H
  | H : vanguardHeadersChan = vanguardConsensusInfoChan |- _ => discriminate H
  | H : vanguardConsensusInfoChan = vanguardHeadersChan |- _ => discriminate H
  end.

(* ===================================================================== *)
(** * Properties *)
(* ===================================================================== *)

(** ** Node construction *)

Section NodeConstruction.

Lemma registered_FetchService r v :
  registered r v = false -> FetchService r v = inr (ServiceNotFoundError v).
Proof.
  unfold registered, FetchService. destruct (lookup_variant r v); [discriminate|reflexivity].
Qed.

Lemma lookup_variant_app r v s v' :
  lookup_variant (r ++ [(v, s)]) v' =
  match lookup_variant r v' with
  | Some x => Some x
  | None => if Variant_eqb v v' then Some s else None
  end.
Proof.
  unfold lookup_variant. induction r as [|[w t] r IH]; simpl.
  - destruct (Variant_eqb v v'); reflexivity.
  - destruct (Variant_eqb w v'); simpl; [reflexivity|exact IH].
Qed.

(** Registering a service changes the registration of its variant only. *)
Lemma register_other svc o lg v :
  Variant_eqb (variant_of svc) v = false ->
  registered (services (snd (fst (register svc o lg)))) v = registered (services o) v.
Proof.
  intros Hv. unfold register, RegisterService.
  destruct (lookup_variant (services o) (variant_of svc)); simpl; [reflexivity|].
  unfold registered. rewrite lookup_variant_app, Hv.
  destruct (lookup_variant (services o) v); reflexivity.
Qed.

Lemma startDB_node E cli o lg :
  let o' := snd (fst (startDB E cli o lg)) in
  services o' = services o /\ ctx o' = ctx o.
Proof. unfold startDB. repeat break_match; simpl; auto. Qed.

Lemma registerVanguardChainService_node E cli o lg v :
  let o' := snd (fst (registerVanguardChainService E cli o lg)) in
  ctx o' = ctx o /\
  (Variant_eqb VanguardChain v = false ->
   registered (services o') v = registered (services o) v).
Proof.
  unfold registerVanguardChainService. destruct (vanguardchain_NewService E); simpl; [auto|].
  split; [|intros Hv; apply (register_other (VanguardService _ _ _)), Hv].
  unfold register. destruct (RegisterService _ _); reflexivity.
Qed.

Lemma registerPandoraChainService_node E cli o lg v :
  let o' := snd (fst (registerPandoraChainService E cli o lg)) in
  ctx o' = ctx o /\
  (Variant_eqb PandoraChain v = false ->
   registered (services o') v = registered (services o) v).
Proof.
  unfold registerPandoraChainService. destruct (pandorachain_NewService E); simpl; [auto|].
  split; [|intros Hv; apply (register_other (PandoraService _ _ _ _)), Hv].
  unfold register. destruct (RegisterService _ _); reflexivity.
Qed.

Lemma registerRPCService_node E cli o lg v :
  let o' := snd (fst (registerRPCService E cli o lg)) in
  ctx o' = ctx o /\
  (Variant_eqb RPC v = false ->
   registered (services o') v = registered (services o) v).
Proof.
  unfold registerRPCService. destruct (FetchService _ _); simpl; [|auto].
  destruct (negb _); destruct (rpc_NewService E); simpl; auto;
    (split; [|intros Hv; apply (register_other (RPCService _ _ _ _ _ _ _ _ _ _)), Hv]);
    unfold register; destruct (RegisterService _ _); reflexivity.
Qed.

(** A node returned by [New] comes without error, its context is derived
    from the caller's by [WithCancel], and it has the upstream vanguard
    service but no consensus service. *)
Lemma New_node E cli o :
  new_node (New E cli) = Some o ->
  new_err (New E cli) = None /\
  consensus_goroutine (New E cli) = true /\
  ctx o = WithCancel (cli_Context cli) /\
  registered (services o) Consensus = false.
Proof.
  unfold New.
  set (o0 := {| cliCtx := cli; ctx := WithCancel (cli_Context cli);
                services := NewServiceRegistry; db := None |}).
  pose proof (startDB_node E (cliCtx o0) o0 []) as H1.
  destruct (startDB E (cliCtx o0) o0 []) as [[e1 o1] l1]. simpl in H1.
  destruct e1; [discriminate|].
  pose proof (registerVanguardChainService_node E cli o1 l1 Consensus) as H2.
  destruct (registerVanguardChainService E cli o1 l1) as [[e2 o2] l2]. simpl in H2.
  destruct e2; [discriminate|].
  pose proof (registerPandoraChainService_node E cli o2 l2 Consensus) as H3.
  destruct (registerPandoraChainService E cli o2 l2) as [[e3 o3] l3]. simpl in H3.
  destruct e3; [discriminate|].
  pose proof (registerRPCService_node E cli o3 l3 Consensus) as H4.
  destruct (registerRPCService E cli o3 l3) as [[e4 o4] l4]. simpl in H4.
  destruct e4; [discriminate|].
  simpl. intros [= <-].
  destruct H1 as [S1 K1], H2 as [K2 S2], H3 as [K3 S3], H4 as [K4 S4].
  subst o0. simpl in S1, K1.
  repeat split; [congruence|].
  rewrite S4, S3, S2 by reflexivity. unfold registered. rewrite S1. reflexivity.
Qed.

(** A failure to open the storage does make [New] fail with that error. *)
Lemma New_storage_open_failure E cli err :
  NewDB_first E = Some err ->
  new_node (New E cli) = None /\ new_err (New E cli) = Some err.
Proof. intros H. unfold New, startDB. simpl. rewrite H. split; reflexivity. Qed.

(** A failed construction of the vanguard service is not returned by
    [registerVanguardChainService]; [New] goes on, and fails later, in
    [registerRPCService], with the error of the fetch. *)
Lemma New_vanguard_construction_failure E cli e :
  vanguardchain_NewService E = Some e ->
  NewDB_first E = None -> ClearDB cli = false -> ForceClearDB cli = false ->
  new_node (New E cli) = None /\
  new_err (New E cli) = Some (ServiceNotFoundError VanguardChain).
Proof.
  intros Hv Hd Hc Hf.
  unfold New, startDB, registerVanguardChainService, registerPandoraChainService,
    registerRPCService.
  simpl. rewrite Hd, Hc, Hf, Hv. simpl.
  destruct (pandorachain_NewService E); simpl; split; reflexivity.
Qed.

Example New_vanguard_fails :
  new_node (New vanguard_fails cli0) = None /\
  new_err (New vanguard_fails cli0) = Some (ServiceNotFoundError VanguardChain).
Proof.
  apply (New_vanguard_construction_failure vanguard_fails cli0
           (ExternalError "vanguard: dial failed")); reflexivity.
Qed.

(** Once the storage has opened and the vanguard service is constructed,
    [New] returns a node and a nil error, whatever the constructors of the
    pandora chain service and of the RPC service answer. *)
Lemma New_ignores_later_construction_failures E cli :
  NewDB_first E = None -> ClearDB cli = false -> ForceClearDB cli = false ->
  vanguardchain_NewService E = None ->
  new_err (New E cli) = None /\ new_node (New E cli) <> None.
Proof.
  intros Hd Hc Hf Hv.
  unfold New, startDB, registerVanguardChainService, registerPandoraChainService,
    registerRPCService.
  simpl. rewrite Hd, Hc, Hf, Hv. simpl.
  destruct (pandorachain_NewService E); simpl;
    destruct (negb _); destruct (rpc_NewService E); simpl; split; congruence.
Qed.

(** [C4] At the failing inputs: the storage opens, nothing is cleared, and
    the construction of the pandora chain service (respectively of the RPC
    service) fails.  [New] returns a node and a nil error; the service whose
    construction failed is missing from the registry. *)
Theorem New_returns_node_when_construction_fails :
  (new_err (New pandora_fails cli0) = None /\
   option_map (fun o => map fst (services o)) (new_node (New pandora_fails cli0))
   = Some [VanguardChain; RPC]) /\
  (new_err (New rpc_fails cli0) = None /\
   option_map (fun o => map fst (services o)) (new_node (New rpc_fails cli0))
   = Some [VanguardChain; PandoraChain]).
Proof. repeat split; reflexivity. Qed.

Lemma Ctx_eqb_depth a : forall b, Ctx_eqb a b = true -> depth a = depth b.
Proof.
  induction a as [i|p IH]; intros [j|q]; simpl; try discriminate; auto.
Qed.

Lemma Ctx_eqb_shallower c x : (depth c < depth x)%nat -> Ctx_eqb c x = false.
Proof.
  intros Hd. destruct (Ctx_eqb c x) eqn:He; [|reflexivity].
  apply Ctx_eqb_depth in He. lia.
Qed.

(** Cancelling a context leaves every context above it alone. *)
Lemma Done_above x c : (depth c < depth x)%nat -> Done [x] c = false.
Proof.
  induction c as [i|p IH]; intros Hd.
  - cbn [Done existsb]. rewrite Ctx_eqb_shallower by exact Hd. reflexivity.
  - cbn [Done existsb]. rewrite Ctx_eqb_shallower by exact Hd.
    rewrite IH by (simpl in Hd; lia). reflexivity.
Qed.

Lemma Ctx_eqb_refl c : Ctx_eqb c c = true.
Proof. induction c; simpl; auto using Nat.eqb_refl. Qed.

(** Whatever node [New] returned and whenever the gate opens, the consensus
    service is built with the caller's context, which the node's [cancel]
    does not reach, while it does cancel the node's own context. *)
Lemma consensus_service_context E cli evs o lg svc n e o' lg' :
  new_node (New E cli) = Some o ->
  registerConsensusService cli evs o lg = (Constructed svc n e, o', lg') ->
  service_ctx svc = cli_Context cli /\
  Done (cancel o []) (service_ctx svc) = false /\
  Done (cancel o []) (ctx o) = true.
Proof.
  intros HN H. apply New_node in HN as (_ & _ & Hc & _).
  assert (Hs : svc = ConsensusService (cli_Context cli) (db o)).
  { unfold registerConsensusService, register in H.
    repeat break_match; congruence. }
  subst svc. unfold cancel. rewrite Hc. simpl service_ctx.
  repeat split.
  - apply Done_above. simpl. lia.
  - simpl. rewrite Ctx_eqb_refl. reflexivity.
Qed.

(** [C5] At the failing input: every collaborator succeeds and the gate is
    satisfied by one delivery on each feed.  The consensus service is
    constructed with the caller's context [cliCtx.Context], not with the
    node's cancellable context, with which the three other services are
    constructed; once [Close] has called [cancel], the contexts of those
    three are done and the context of the consensus service is not. *)
Theorem consensus_service_not_given_node_context :
  let r := New_then_consensus all_succeed cli0
             [vanguardHeadersChan; vanguardConsensusInfoChan] in
  option_map ctx (new_node (fst r)) = Some (WithCancel (cli_Context cli0)) /\
  option_map (fun x => contexts_of (services (snd (fst x)))) (snd r)
  = Some [(VanguardChain, WithCancel (cli_Context cli0));
          (PandoraChain, WithCancel (cli_Context cli0));
          (RPC, WithCancel (cli_Context cli0));
          (Consensus, cli_Context cli0)] /\
  option_map (fun x => map (fun p => (fst p, Done (cancel (snd (fst x)) []) (snd p)))
                           (contexts_of (services (snd (fst x))))) (snd r)
  = Some [(VanguardChain, true); (PandoraChain, true); (RPC, true);
          (Consensus, false)].
Proof. repeat split; reflexivity. Qed.

(** [C6] When the vanguard chain service is not in the registry,
    [registerRPCService] returns the [ServiceNotFoundError] of the fetch and
    leaves the node, hence its registry, as it was: no RPC service is
    added. *)
Theorem registerRPCService_without_upstream E cli o lg :
  registered (services o) VanguardChain = false ->
  registerRPCService E cli o lg = (Some (ServiceNotFoundError VanguardChain), o, lg) /\
  FetchService (services o) VanguardChain = inr (ServiceNotFoundError VanguardChain).
Proof.
  intros H. apply registered_FetchService in H.
  unfold registerRPCService. rewrite H. split; reflexivity.
Qed.

Lemma registerRPCService_without_upstream_witness :
  registerRPCService all_succeed cli0 empty_node []
  = (Some (ServiceNotFoundError VanguardChain), empty_node, []).
Proof.
  apply (registerRPCService_without_upstream all_succeed cli0 empty_node []).
  reflexivity.
Defined.

(** [C7] When the fetch of either upstream service fails,
    [registerConsensusService] logs the error and returns, leaving the node
    and its registry as they were; and for a node returned by [New], which
    started the function in a goroutine of its own, what [New] returned is
    unchanged: a node, a nil error, and no consensus service registered. *)
Theorem registerConsensusService_fetch_failure :
  (forall cli evs o lg,
     registered (services o) VanguardChain = false \/
     registered (services o) PandoraChain = false ->
     exists err,
       (err = ServiceNotFoundError VanguardChain \/
        err = ServiceNotFoundError PandoraChain) /\
       registerConsensusService cli evs o lg
       = (Abandoned err, o,
          lg ++ [logf ErrorLevel [("err", FErr err)]
                      "Consensus service not registered"])) /\
  (forall E cli evs o,
     new_node (New E cli) = Some o ->
     registered (services o) VanguardChain = false \/
     registered (services o) PandoraChain = false ->
     exists err,
       New_then_consensus E cli evs
       = (New E cli,
          Some (Abandoned err, o,
                new_log (New E cli)
                ++ [logf ErrorLevel [("err", FErr err)]
                         "Consensus service not registered"])) /\
       new_err (New E cli) = None /\
       registered (services o) Consensus = false).
Proof.
  assert (A : forall cli evs o lg,
     registered (services o) VanguardChain = false \/
     registered (services o) PandoraChain = false ->
     exists err,
       (err = ServiceNotFoundError VanguardChain \/
        err = ServiceNotFoundError PandoraChain) /\
       registerConsensusService cli evs o lg
       = (Abandoned err, o,
          lg ++ [logf ErrorLevel [("err", FErr err)]
                      "Consensus service not registered"])).
  { intros cli evs o lg H. unfold registerConsensusService.
    destruct (FetchService (services o) VanguardChain) as [s|e] eqn:Hv.
    - destruct H as [H|H]; apply registered_FetchService in H; [congruence|].
      rewrite H. eauto.
    - unfold FetchService in Hv.
      destruct (lookup_variant (services o) VanguardChain); [discriminate|].
      injection Hv as <-. eauto. }
  split; [exact A|].
  intros E cli evs o HN H.
  destruct (New_node _ _ _ HN) as (He & Hg & _ & Hc).
  destruct (A cli evs o (new_log (New E cli)) H) as (err & _ & Hr).
  exists err. unfold New_then_consensus. rewrite HN, Hg, Hr. auto.
Qed.

Lemma registerConsensusService_fetch_failure_witness :
  (exists err,
     registerConsensusService cli0 [vanguardHeadersChan] empty_node []
     = (Abandoned err, empty_node,
        [] ++ [logf ErrorLevel [("err", FErr err)]
                    "Consensus service not registered"])) /\
  (exists err,
     New_then_consensus pandora_fails cli0
       [vanguardHeadersChan; vanguardConsensusInfoChan]
     = (New pandora_fails cli0,
        Some (Abandoned err, degraded_node,
              new_log (New pandora_fails cli0)
              ++ [logf ErrorLevel [("err", FErr err)]
                       "Consensus service not registered"])) /\
     new_err (New pandora_fails cli0) = None).
Proof.
  destruct registerConsensusService_fetch_failure as [A B]. split.
  - destruct (A cli0 [vanguardHeadersChan] empty_node [] (or_introl eq_refl))
      as (err & _ & H).
    exists err. exact H.
  - destruct (B pandora_fails cli0 [vanguardHeadersChan; vanguardConsensusInfoChan]
                degraded_node eq_refl (or_intror eq_refl)) as (err & H1 & H2 & _).
    exists err. split; assumption.
Defined.

End NodeConstruction.

(** ** The synchronization gate *)

Section Gate.

Lemma firstn_In {A} (x : A) n : forall l, In x (firstn n l) -> In x l.
Proof.
  induction n as [|n IH]; intros [|y l]; simpl; auto; try tauto.
  intros [?|?]; auto.
Qed.

Lemma satisfied_by_nil hl cl : hl || cl = true -> ~ satisfied_by hl cl [].
Proof. intros Ho Hs. unfold satisfied_by in Hs. destruct hl, cl; simpl in *; feeds. Qed.

Lemma gate_loop_complete evs : forall hl cl n lg,
  satisfied_by hl cl evs -> hl || cl = true ->
  exists k lg', gate_loop hl cl n lg evs = Unchained k lg'.
Proof.
  induction evs as [|f evs IH]; intros hl cl n lg Hs Hor.
  - destruct (satisfied_by_nil _ _ Hor Hs).
  - unfold satisfied_by in *.
    destruct f, hl, cl; simpl in *; try discriminate; eauto;
      apply IH; try reflexivity; feeds; auto.
Qed.

(** The body of the loop on a feed [f], seen from the deliveries still to
    come: the locks after it are satisfied by [l] exactly when the locks
    before it are satisfied by [f :: l]. *)
Lemma gate_body_satisfied hl cl f l :
  let '(hl', cl', _, _) := gate_body hl cl f in
  satisfied_by hl cl (f :: l) <-> satisfied_by hl' cl' l.
Proof.
  unfold satisfied_by.
  destruct f, hl, cl; simpl; split; intros; feeds; auto.
Qed.

Lemma gate_body_leave hl cl f :
  hl || cl = true ->
  let '(hl', cl', _, leave) := gate_body hl cl f in
  (leave = true <-> satisfied_by hl cl [f]) /\ (leave = false -> hl' || cl' = true).
Proof.
  unfold satisfied_by.
  destruct f, hl, cl; simpl; intros; repeat split; intros; feeds; auto.
Qed.

Lemma gate_loop_sound evs : forall hl cl n lg k lg',
  gate_loop hl cl n lg evs = Unchained k lg' -> hl || cl = true ->
  exists j, k = (n + S j)%nat /\ (j < length evs)%nat /\
            satisfied_by hl cl (firstn (S j) evs) /\
            ~ satisfied_by hl cl (firstn j evs).
Proof.
  induction evs as [|f evs IH]; intros hl cl n lg k lg' H Hor; [discriminate|].
  cbn [gate_loop] in H.
  pose proof (gate_body_leave hl cl f Hor) as Hl.
  pose proof (gate_body_satisfied hl cl f) as Hb.
  destruct (gate_body hl cl f) as [[[hl' cl'] lg0] leave].
  destruct Hl as [Hl Hor']. destruct leave.
  - injection H as <- _. exists 0%nat. simpl. repeat split; try lia.
    + apply Hl; reflexivity.
    + apply Hl; reflexivity.
    + apply satisfied_by_nil, Hor.
  - destruct (IH _ _ _ _ _ _ H (Hor' eq_refl)) as (j & -> & Hlt & Hs & Hns).
    exists (S j). repeat split; simpl; try lia.
    + apply (Hb (firstn (S j) evs)); exact Hs.
    + apply (Hb (firstn (S j) evs)); exact Hs.
    + intros Hc. apply Hns. apply (Hb (firstn j evs)). exact Hc.
Qed.

Lemma gate_repeat_header n : forall hl k lg,
  gate_loop hl true k lg (repeat vanguardHeadersChan n)
  = Waiting (hl && (n =? 0)%nat) true (k + n)
      (lg ++ if hl && negb (n =? 0)%nat
             then [logf InfoLevel [("context", FStr "vanguardHeadersChan")]
                        "received signal about vanguard headers"]
             else []).
Proof.
  induction n as [|n IH]; intros hl k lg; simpl.
  - rewrite andb_true_r, andb_false_r, app_nil_r, Nat.add_0_r. reflexivity.
  - destruct hl; simpl; rewrite IH; simpl;
      rewrite ?app_nil_r, <- ?app_assoc; repeat f_equal; lia.
Qed.

Lemma gate_repeat_consensus n : forall cl k lg,
  gate_loop true cl k lg (repeat vanguardConsensusInfoChan n)
  = Waiting true (cl && (n =? 0)%nat) (k + n)
      (lg ++ if cl && negb (n =? 0)%nat
             then [logf InfoLevel [("context", FStr "vanguardHeadersChan")]
                        "received signal about vanguard consensus info"]
             else []).
Proof.
  induction n as [|n IH]; intros cl k lg; simpl.
  - rewrite andb_true_r, andb_false_r, app_nil_r, Nat.add_0_r. reflexivity.
  - destruct cl; simpl; rewrite IH; simpl;
      rewrite ?app_nil_r, <- ?app_assoc; repeat f_equal; lia.
Qed.

(** [C3] The loop of the synchronization gate in [registerConsensusService]
    is left exactly when each of the two feeds has delivered at least one
    event, and it is left at the delivery that completes the pair: the
    header feed then the consensus-info feed, or the reverse, leave it after
    two deliveries; any number of deliveries on one feed alone leaves it
    waiting; a delivery on a feed whose lock is already cleared changes no
    lock, logs nothing and does not leave the loop. *)
Theorem gate_unchained_iff_both_feeds :
  (forall evs,
     (exists n lg, gate evs = Unchained n lg) <->
     (In vanguardHeadersChan evs /\ In vanguardConsensusInfoChan evs)) /\
  (forall evs n lg, gate evs = Unchained n lg ->
     (1 <= n <= length evs)%nat /\
     (In vanguardHeadersChan (firstn n evs) /\
      In vanguardConsensusInfoChan (firstn n evs)) /\
     ~ (In vanguardHeadersChan (firstn (n - 1) evs) /\
        In vanguardConsensusInfoChan (firstn (n - 1) evs))) /\
  (exists lg, gate [vanguardHeadersChan; vanguardConsensusInfoChan] = Unchained 2 lg) /\
  (exists lg, gate [vanguardConsensusInfoChan; vanguardHeadersChan] = Unchained 2 lg) /\
  (forall n, exists hl lg,
     gate (repeat vanguardHeadersChan n) = Waiting hl true n lg) /\
  (forall n, exists cl lg,
     gate (repeat vanguardConsensusInfoChan n) = Waiting true cl n lg) /\
  (forall cl, gate_body false cl vanguardHeadersChan = (false, cl, [], false)) /\
  (forall hl, gate_body hl false vanguardConsensusInfoChan = (hl, false, [], false)).
Proof.
  assert (Hsat : forall l, satisfied_by true true l <->
            In vanguardHeadersChan l /\ In vanguardConsensusInfoChan l).
  { unfold satisfied_by. intros l; split;
      [intros [[?|?] [?|?]]; try discriminate; auto | intros [? ?]; auto]. }
  split; [|split; [|split; [|split; [|split; [|split; [|split]]]]]].
  - intros evs; split.
    + intros (n & lg & H). apply gate_loop_sound in H; [|reflexivity].
      destruct H as (j & _ & _ & Hs & _). apply Hsat in Hs.
      destruct Hs as [Hh Hc]. split; eapply firstn_In; eassumption.
    + intros H. apply gate_loop_complete; [apply Hsat, H|reflexivity].
  - intros evs n lg H. apply gate_loop_sound in H; [|reflexivity].
    destruct H as (j & -> & Hlt & Hs & Hns). simpl.
    rewrite Nat.sub_0_r. repeat split; try lia; try (apply Hsat, Hs).
    intros Hc. apply Hns, Hsat, Hc.
  - eexists; reflexivity.
  - eexists; reflexivity.
  - intros n. unfold gate. rewrite gate_repeat_header. eauto.
  - intros n. unfold gate. rewrite gate_repeat_consensus. eauto.
  - intros []; reflexivity.
  - intros []; reflexivity.
Qed.

Lemma gate_unchained_iff_both_feeds_witness :
  exists n lg,
    gate [vanguardHeadersChan; vanguardHeadersChan; vanguardConsensusInfoChan]
    = Unchained n lg.
Proof.
  apply (proj1 gate_unchained_iff_both_feeds
           [vanguardHeadersChan; vanguardHeadersChan; vanguardConsensusInfoChan]).
  split; simpl; auto.
Defined.

End Gate.

(** ** The signal handler *)

Section Handler.

Lemma step_exited l m : exit m <> None -> step l m = m.
Proof. unfold step. destruct (exit m); [reflexivity|congruence]. Qed.

Lemma run_exited sched : forall m, exit m <> None -> run sched m = m.
Proof.
  induction sched as [|l sched IH]; intros m H; simpl; [reflexivity|].
  rewrite step_exited by exact H. apply IH, H.
Qed.

Lemma run_app s1 : forall s2 m, run (s1 ++ s2) m = run s2 (run s1 m).
Proof. induction s1 as [|l s1 IH]; intros s2 m; simpl; [reflexivity|apply IH]. Qed.

Lemma handler_after_panic m : handler_after (11 + m) = HPanic.
Proof.
  induction m as [|m IH]; [reflexivity|].
  replace (11 + S m)%nat with (S (11 + m)) by lia.
  cbn [handler_after]. rewrite IH. reflexivity.
Qed.

(** Once the handler has panicked, further signals change nothing. *)
Lemma signals_after_panic m :
  run (boot ++ signals (11 + m)) init = run (boot ++ signals 11) init.
Proof.
  induction m as [|m IH]; [reflexivity|].
  replace (11 + S m)%nat with (S (11 + m)) by lia.
  cbn [signals]. rewrite app_assoc, run_app, IH.
  apply run_exited. vm_compute. discriminate.
Qed.

(** [C2] In the handler installed by [Start], the first signal received
    starts [Close] (and no later one does); the signal received after [n]
    earlier ones, for n = 1..9 (signals 2 to 10), logs the warning with the
    remaining count 10 - n, the others log no warning; the handler is past
    the loop, in [panic], exactly from the 11th signal on; and the process
    running [Start] and this handler, with [Close] never completing, has
    one invocation of [Close] pending from the first signal on, has not
    exited after 0 to 10 signals and has exited by the handler's panic after
    the 11th. *)
Theorem signal_escalation (n : nat) :
  go_Close (signal_effect n) = (n =? 0)%nat /\
  logged (signal_effect n) =
    (if (n =? 0)%nat then [logf InfoLevel [] "Got interrupt, shutting down..."]
     else if (n <=? 9)%nat
          then [logf InfoLevel [("times", FInt (10 - Z.of_nat n))]
                     "Already shutting down, interrupt more to panic"]
          else []) /\
  panicked (handler_after n) = (11 <=? n)%nat /\
  closers (run (boot ++ signals n) init)
  = (if (n =? 0)%nat then [] else [CLock]) /\
  exit (run (boot ++ signals n) init)
  = (if (11 <=? n)%nat then Some (Panic THandler) else None).
Proof.
  do 11 (destruct n as [|n]; [repeat split; reflexivity|]).
  change (S (S (S (S (S (S (S (S (S (S (S n)))))))))))
    with (11 + n)%nat.
  unfold signal_effect. rewrite handler_after_panic, signals_after_panic.
  repeat split; vm_compute; reflexivity.
Qed.

End Handler.

(** ** Start, Close and the lock *)

Section Lifecycle.

Lemma count_if_app f l1 l2 :
  count_if f (l1 ++ l2) = (count_if f l1 + count_if f l2)%nat.
Proof. induction l1 as [|pc l1 IH]; simpl; [reflexivity|]. rewrite IH. lia. Qed.

Lemma count_if_insert f l : forall k pc pc',
  l !! k = Some pc ->
  (count_if f (<[k := pc']> l) + (if f pc then 1 else 0)
   = count_if f l + (if f pc' then 1 else 0))%nat.
Proof.
  induction l as [|x l IH]; intros [|k] pc pc' H; simpl in *; try discriminate.
  - injection H as ->. lia.
  - specialize (IH k pc pc' H). lia.
Qed.

Lemma Inv_init : Inv init.
Proof.
  constructor; simpl; try reflexivity; try discriminate;
    try (intros; discriminate); try (split; discriminate).
Qed.

(** A step of an invocation of [Close] that moves it from [pc] to [pc']. *)
Lemma closer_moves m k pc pc' j pj :
  closers m !! k = Some pc ->
  <[k := pc']> (closers m) !! j = Some pj ->
  (j = k /\ pj = pc') \/ (j <> k /\ closers m !! j = Some pj).
Proof.
  intros Hk Hj. destruct (decide (j = k)) as [->|Hne].
  - rewrite list_lookup_insert_eq in Hj by (eapply lookup_lt_Some; eassumption).
    left. split; congruence.
  - rewrite list_lookup_insert_ne in Hj by congruence. right. auto.
Qed.

Lemma Inv_step_Start m : exit m = None -> Inv m -> Inv (step_Start m).
Proof.
  intros He [I1 I2 I3 I4 I5 I6 I7 I8 I9 I10]. unfold step_Start.
  destruct (start_pc m) eqn:Hpc; simpl in *;
    [destruct (lock m) as [t|] eqn:Hl; simpl| | | |destruct (stop_closed m) eqn:Hs|];
    constructor; simpl; rewrite ?Hpc, ?Hl, ?Hs; auto; try discriminate;
    try tauto; try (split; discriminate).
  all: try (intros k; discriminate).
  - intros k pc Hk. split; [|discriminate].
    intros Hc. apply (I3 k pc Hk) in Hc. discriminate.
  - intros k pc Hk. split; [|discriminate].
    intros Hc. apply (I3 k pc Hk) in Hc.
    rewrite (proj2 I1 eq_refl) in Hc. discriminate.
Qed.

Lemma Inv_CallClose m : Inv m -> Inv (set_closers (closers m ++ [CLock]) m).
Proof.
  intros [I1 I2 I3 I4 I5 I6 I7 I8 I9 I10].
  constructor; simpl; rewrite ?count_if_app; simpl; auto; try lia.
  - intros k pc Hk. apply lookup_app_Some in Hk as [Hk|[Hlen Hk]]; [auto|].
    apply list_lookup_singleton_Some in Hk as [Hk <-]. simpl.
    split; [discriminate|]. intros Hl. apply I4 in Hl. lia.
  - intros k Hl. apply I4 in Hl. rewrite length_app. simpl. lia.
  - intros k Hk. apply lookup_app_Some in Hk as [Hk|[Hlen Hk]]; [auto|].
    apply list_lookup_singleton_Some in Hk as [_ Hk]. discriminate.
Qed.

Lemma Inv_set_handler h m : Inv m -> Inv (set_handler h m).
Proof. intros [I1 I2 I3 I4 I5 I6 I7 I8 I9 I10]. constructor; simpl; auto. Qed.

Lemma Inv_set_sigc b m : Inv m -> Inv (set_sigc b m).
Proof. intros [I1 I2 I3 I4 I5 I6 I7 I8 I9 I10]. constructor; simpl; auto. Qed.

Lemma Inv_set_exit e m : exit m = None -> Inv m -> Inv (set_exit e m).
Proof.
  intros He [I1 I2 I3 I4 I5 I6 I7 I8 I9 I10]. constructor; simpl; auto.
  intros k Hk. apply I9 in Hk as [Hk _]. congruence.
Qed.

Lemma Inv_step_Handler m : exit m = None -> Inv m -> Inv (step_Handler m).
Proof.
  intros He I. unfold step_Handler.
  destruct (handler m) as [pc|]; [|exact I].
  destruct pc; try (apply Inv_set_handler, I);
    (destruct (sigc m); [|exact I]);
    (destruct (panicked _); [apply Inv_set_exit|]);
    try (destruct (go_Close _));
    repeat first [ exact I | apply Inv_CallClose
                 | apply Inv_set_handler | apply Inv_set_sigc
                 | (simpl; exact He) ].
Qed.

Lemma Inv_step_Close k m : exit m = None -> Inv m -> Inv (step_Close k m).
Proof.
  intros He I. unfold step_Close.
  destruct (closers m !! k) as [pc|] eqn:Hk; [|exact I].
  pose proof (closer_moves m k pc) as Hmv.
  pose proof (fun f pc' => count_if_insert f (closers m) k pc pc' Hk) as Hcnt.
  pose proof (lookup_lt_Some _ _ _ Hk) as Hlt.
  destruct I as [I1 I2 I3 I4 I5 I6 I7 I8 I9 I10].
  pose proof (I3 k pc Hk) as Hme.
  pose proof (I9 k) as Hpk.
  assert (Hfree : lock m = None -> holds_lock (start_pc m) = false).
  { intros Hl. destruct (holds_lock (start_pc m)); [|reflexivity].
    rewrite (proj2 I1 eq_refl) in Hl. discriminate. }
  destruct pc; simpl in *;
    [destruct (lock m) as [t|] eqn:Hl; simpl| | |
     destruct (stop_closed m) eqn:Hs; simpl| | |];
    try solve [constructor; rewrite ?Hl, ?Hs; auto];
    constructor; simpl; rewrite ?length_insert; auto;
    try match goal with
        | |- context [count_if ?f (<[k := ?pc']> _)] =>
          specialize (Hcnt f pc'); simpl in Hcnt; lia
        end;
    try (intros j pj Hj;
         destruct (Hmv _ j pj Hk Hj) as [[-> ->]|[Hne Hj']];
         [simpl|pose proof (I3 j pj Hj') as Hj3]);
    try (intros j Hj;
         destruct (Hmv _ j _ Hk Hj) as [[-> Hj']|[Hne Hj']];
         [try discriminate|pose proof (I9 j Hj') as Hj9]);
    try tauto; try congruence; try lia;
    try (split; congruence).
  all: first
    [ solve [rewrite (Hfree eq_refl); split; discriminate]
    | solve [split; [intros H; apply Hj3 in H; discriminate
                    |intros [= ->]; congruence]]
    | solve [rewrite Hs; exact I8]
    | solve [destruct Hj9; congruence]
    | solve [pose proof (proj1 Hme eq_refl) as Hown;
             split; [discriminate|]; intros H; apply I1 in H; congruence]
    | solve [pose proof (proj1 Hme eq_refl) as Hown;
             split; [|discriminate]; intros H; apply Hj3 in H; congruence] ].
Qed.

Lemma Inv_step l m : Inv m -> Inv (step l m).
Proof.
  intros I. unfold step. destruct (exit m) eqn:He; [exact I|].
  destruct l as [[| |k]| |].
  - apply Inv_step_Start; assumption.
  - apply Inv_step_Handler; assumption.
  - apply Inv_step_Close; assumption.
  - destruct (notified _); [apply Inv_set_sigc|apply Inv_set_exit]; assumption.
  - apply Inv_CallClose; assumption.
Qed.

Lemma Inv_run sched : forall m, Inv m -> Inv (run sched m).
Proof.
  induction sched as [|l sched IH]; intros m I; simpl; [exact I|].
  apply IH, Inv_step, I.
Qed.

(** [C1], amended.  The lock serialises [Close]: two invocations
    are never both between [Lock] and [Unlock].  [StopAll] and [cancel] are
    called once by every invocation that got past the lock, not once
    overall.  The stop channel is closed at most once, by the one invocation
    that gets past [close(b.stop)]; an invocation found in the panic of
    [close(b.stop)] has ended the process, the channel being closed already.
    With a single invocation of [Close], run to its end, [StopAll] and
    [cancel] were called exactly once and the stop channel was closed exactly
    once. *)
Theorem Close_serialised_once_per_invocation (sched : list Label) :
  let m := run sched init in
  (forall j k pj pk,
     closers m !! j = Some pj -> closers m !! k = Some pk ->
     in_critical pj = true -> in_critical pk = true -> j = k) /\
  StopAll_calls m = count_if past_StopAll (closers m) /\
  cancel_calls m = count_if past_cancel (closers m) /\
  stop_closes m = count_if past_close (closers m) /\
  stop_closes m = (if stop_closed m then 1%nat else 0%nat) /\
  (forall k, closers m !! k = Some CPanicked ->
     exit m = Some (Panic (TClose k)) /\ stop_closed m = true) /\
  (closers m = [CDone] ->
     StopAll_calls m = 1%nat /\ cancel_calls m = 1%nat /\ stop_closes m = 1%nat).
Proof.
  intros m. subst m.
  destruct (Inv_run sched init Inv_init) as [I1 I2 I3 I4 I5 I6 I7 I8 I9 I10].
  split; [|split; [|split; [|split; [|split; [|split]]]]]; auto.
  - intros j k pj pk Hj Hk Cj Ck.
    apply (I3 j pj Hj) in Cj. apply (I3 k pk Hk) in Ck. congruence.
  - intros H. rewrite I5, I6, I7, H. repeat split; reflexivity.
Qed.

Lemma Close_serialised_once_per_invocation_witness :
  StopAll_calls (run Close_once init) = 1%nat /\
  cancel_calls (run Close_once init) = 1%nat /\
  stop_closes (run Close_once init) = 1%nat.
Proof.
  destruct (Close_serialised_once_per_invocation Close_once)
    as (_ & _ & _ & _ & _ & _ & H).
  exact (H eq_refl).
Defined.

(** [C1] as stated fails: after two invocations of [Close], one after the
    other or concurrently, [StopAll] has been called twice, and the second
    [close(b.stop)] has panicked. *)
Lemma Close_twice_stops_twice_and_panics :
  (StopAll_calls (run Close_twice init) = 2%nat /\
   closers (run Close_twice init) = [CDone; CPanicked] /\
   exit (run Close_twice init) = Some (Panic (TClose 1))) /\
  (StopAll_calls (run Close_concurrently init) = 2%nat /\
   closers (run Close_concurrently init) = [CDone; CPanicked] /\
   exit (run Close_concurrently init) = Some (Panic (TClose 1))).
Proof. repeat split; reflexivity. Qed.

Lemma HandlerInv_init : HandlerInv init.
Proof. constructor; simpl; auto. Qed.

Lemma HandlerInv_step l m :
  is_CallClose l = false -> HandlerInv m -> HandlerInv (step l m).
Proof.
  intros Hl [H1 H2]. unfold step. destruct (exit m) eqn:He; [constructor; assumption|].
  destruct l as [[| |k]| |]; try discriminate.
  - unfold step_Start.
    destruct (start_pc m) eqn:Hpc; [destruct (is_free (lock m))| | | |
                                    destruct (stop_closed m)|];
      constructor; simpl; rewrite ?Hpc; auto;
      destruct (handler m) as [[]|]; simpl in *; intuition congruence.
  - unfold step_Handler.
    destruct (handler m) as [[| |i|]|] eqn:Hh; simpl in H1, H2.
    + constructor; simpl; assumption.
    + destruct (sigc m); [|constructor; rewrite ?Hh; assumption].
      constructor; simpl; auto. rewrite H1. reflexivity.
    + destruct (sigc m); [|constructor; rewrite ?Hh; assumption].
      unfold on_signal, for_test. cbn [next go_Close].
      destruct (i - 1 >? 0); constructor; simpl; auto.
    + destruct (sigc m); [|constructor; rewrite ?Hh; assumption].
      constructor; simpl; auto.
    + constructor; rewrite ?Hh; assumption.
  - unfold step_Close.
    destruct (closers m !! k) as [[]|] eqn:Hk;
      [destruct (is_free (lock m))| | |destruct (stop_closed m)| | | |];
      constructor; simpl; rewrite ?length_insert; auto;
      destruct (handler m) as [[]|]; simpl in *; auto;
      rewrite H1 in Hk; discriminate.
  - destruct (notified _); constructor; simpl; auto.
Qed.

Lemma HandlerInv_run sched : forall m,
  handler_only sched = true -> HandlerInv m -> HandlerInv (run sched m).
Proof.
  unfold handler_only.
  induction sched as [|l sched IH]; intros m Hs H; simpl in *; [exact H|].
  apply negb_true_iff, orb_false_iff in Hs as [Hl Hs].
  apply IH; [rewrite Hs; reflexivity|apply HandlerInv_step; assumption].
Qed.

(** The state of the lock and of the stop channel, read off the place of
    the one invocation of [Close]. *)
Lemma single_closer m pc :
  Inv m -> closers m = [pc] -> lock m <> Some TStart ->
  lock m = (if in_critical pc then Some (TClose 0) else None) /\
  stop_closed m = past_close pc.
Proof.
  intros [I1 I2 I3 I4 I5 I6 I7 I8 I9 I10] Hc Hs. split.
  - pose proof (I3 0%nat pc) as H. rewrite Hc in H. specialize (H eq_refl).
    destruct (lock m) as [[| |k]|] eqn:Hl; try congruence.
    + pose proof (I4 k eq_refl) as Hk. rewrite Hc in Hk. simpl in Hk.
      assert (k = 0%nat) as -> by lia.
      rewrite (proj2 H eq_refl). reflexivity.
    + destruct (in_critical pc); [|reflexivity].
      destruct H as [H _]. discriminate (H eq_refl).
  - rewrite Hc in I7. simpl in I7. rewrite I7 in I8.
    destruct (past_close pc), (stop_closed m); simpl in I8; congruence.
Qed.

(** [C10] When [Close] is invoked by the handler only: while [Start] is
    blocked on the stop channel it has called [StartAll] and does not hold
    the lock, which is free or held by the invocation of [Close]; once the handler has taken its first
    signal there is an invocation of [Close]; and from every state with an
    invocation of [Close], unless the process has exited, letting that
    invocation and then [Start] run takes [Close] through the lock to its
    end, closes the stop channel, and lets [Start] return. *)
Theorem Start_releases_lock_before_waiting (sched : list Label) :
  handler_only sched = true ->
  let m := run sched init in
  (start_pc m = SWait ->
   StartAll_calls m = 1%nat /\
   (lock m = None \/
    (lock m = Some (TClose 0) /\
     exists pc, closers m = [pc] /\ in_critical pc = true))) /\
  (forall i, handler m = Some (HLoop i) -> closers m <> []) /\
  (closers m <> [] -> exit m = None ->
   let m' := run drain m in
   closers m' = [CDone] /\ stop_closed m' = true /\ lock m' = None /\
   start_pc m' = SReturned /\ exit m' = None).
Proof.
  intros Hs m. subst m.
  pose proof (Inv_run sched init Inv_init) as I.
  pose proof (HandlerInv_run sched init Hs HandlerInv_init) as [H1 H2].
  set (m := run sched init) in *.
  assert (Hone : closers m <> [] ->
            (exists pc, closers m = [pc]) /\
            (start_pc m = SWait \/ start_pc m = SReturned)).
  { intros Hne. destruct (handler m) as [[]|]; try contradiction; split; auto;
      destruct (closers m) as [|pc [|]]; try discriminate; eauto. }
  assert (Hns : start_pc m = SWait \/ start_pc m = SReturned ->
                lock m <> Some TStart).
  { intros Hpc Hl. apply (inv_start m I) in Hl.
    destruct Hpc as [Hpc|Hpc]; rewrite Hpc in Hl; discriminate. }
  split; [|split].
  - intros Hpc. split; [rewrite (inv_StartAll m I), Hpc; reflexivity|].
    destruct (closers m) as [|pc l] eqn:Hc.
    + left. destruct (lock m) as [[| |k]|] eqn:Hl; auto.
      * destruct (Hns (or_introl Hpc) eq_refl).
      * destruct (inv_handler m I Hl).
      * apply (inv_owner m I) in Hl. rewrite Hc in Hl. simpl in Hl. lia.
    + destruct Hone as [[pc' Hpc'] _]; [discriminate|].
      injection Hpc' as -> ->. rewrite <- Hc in *.
      destruct (single_closer m pc' I Hc (Hns (or_introl Hpc))) as [Hl _].
      destruct (in_critical pc') eqn:Hcr; [right|left]; eauto.
  - intros i Hh. rewrite Hh in H1. intros Hc. rewrite Hc in H1. discriminate.
  - intros Hne He. destruct (Hone Hne) as [[pc Hc] Hpc].
    destruct (single_closer m pc I Hc (Hns Hpc)) as [Hl Hst].
    assert (Hp : pc <> CPanicked).
    { intros ->. destruct (inv_panic m I 0%nat) as [Hx _]; [rewrite Hc; reflexivity|].
      congruence. }
    clearbody m. clear I H1 H2 Hone Hns Hne.
    destruct m as [lk sc sg n1 n2 n3 n4 spc h cl ex]. simpl in *. subst.
    destruct pc; try congruence; destruct Hpc as [-> | ->];
      repeat split; reflexivity.
Qed.

Lemma Start_releases_lock_before_waiting_witness :
  start_pc (run drain (run Start_then_signal init)) = SReturned.
Proof.
  destruct (Start_releases_lock_before_waiting Start_then_signal eq_refl)
    as (_ & _ & H).
  destruct (H ltac:(discriminate) eq_refl) as (_ & _ & _ & Hr & _).
  exact Hr.
Defined.

End Lifecycle.

(** ** Debounce *)

Section DebounceFacts.

Context {V : Type}.
Variable interval : Z.
Variable tl : Timeline V.
Variable rank : nat -> Case -> nat.

(** The select when the next event comes before the timer fires and before
    any cancellation. *)
Lemma select_receives fuel ev now t v q cs :
  now <= t -> t - now < interval ->
  quiet_through t (doneAt tl) ->
  debounce_from interval tl rank (S fuel) (AtSelect ev) now ((t, v) :: q) cs
  = debounce_from interval tl rank fuel (AtSelect v) t q cs.
Proof.
  intros H1 H2 H3. cbn [debounce_from chan_ready from_now].
  unfold NewTimer.
  replace (Z.max now t) with t by lia.
  destruct (doneAt tl) as [d|]; cbn [from_now earliest ready_at quiet_through] in *.
  - replace (Z.min (Z.min (now + Z.max 0 interval) t) (Z.max now d)) with t by lia.
    rewrite Z.leb_refl.
    destruct (Z.leb_spec (now + Z.max 0 interval) t); [lia|].
    destruct (Z.leb_spec (Z.max now d) t); [lia|].
    reflexivity.
  - replace (Z.min (now + Z.max 0 interval) t) with t by lia.
    rewrite Z.leb_refl.
    destruct (Z.leb_spec (now + Z.max 0 interval) t); [lia|].
    reflexivity.
Qed.

(** The select when the timer fires before anything else is ready. *)
Lemma select_fires fuel ev now q cs :
  0 <= interval ->
  quiet_through (now + interval) (chan_ready tl q) ->
  quiet_through (now + interval) (doneAt tl) ->
  debounce_from interval tl rank (S fuel) (AtSelect ev) now q cs
  = debounce_from interval tl rank fuel AtRange (now + interval) q
      (cs ++ [(now + interval, ev)]).
Proof.
  intros H0 H1 H2. cbn [debounce_from].
  unfold NewTimer. replace (Z.max 0 interval) with interval by lia.
  destruct (chan_ready tl q) as [c|], (doneAt tl) as [d|];
    cbn [from_now earliest ready_at quiet_through] in *;
    repeat match goal with
    | |- context [Z.min ?a ?b] =>
      first [replace (Z.min a b) with a by lia | replace (Z.min a b) with b by lia]
    end;
    rewrite ?Z.leb_refl;
    repeat match goal with
    | |- context [?a <=? ?b] => destruct (Z.leb_spec a b); [lia|]
    end;
    reflexivity.
Qed.

Lemma last_cons_cons {A} (x y : A) l d : List.last (x :: y :: l) d = List.last (y :: l) d.
Proof. reflexivity. Qed.

Lemma last_cons_default {A} l : forall (x d : A), List.last (x :: l) d = List.last l x.
Proof.
  induction l as [|y l IH]; intros x d; [reflexivity|].
  rewrite last_cons_cons, (IH y d), (IH y x). reflexivity.
Qed.

Lemma burst_last (q : list (Z * iface V)) : forall prev ev,
  burst interval prev q -> prev <= fst (List.last q (prev, ev)).
Proof.
  induction q as [|[t v] q IH]; intros prev ev H; [simpl; lia|].
  destruct H as (H1 & H2 & H3). rewrite last_cons_default.
  specialize (IH t v H3). lia.
Qed.

(** From inside the inner loop, with a burst still to come and later
    events after it: the events of the burst are received one by one, the
    timer re-armed each time fires one interval after the last of them, the
    handler gets that last event, and Debounce is back at [range]. *)
Lemma debounce_burst (q : list (Z * iface V)) : forall later fuel ev now cs,
  0 <= interval ->
  burst interval now q ->
  let lst := List.last q (now, ev) in
  quiet_through (fst lst + interval) (chan_ready tl later) ->
  quiet_through (fst lst + interval) (doneAt tl) ->
  debounce_from interval tl rank (length q + 1 + fuel) (AtSelect ev) now
    (q ++ later) cs
  = debounce_from interval tl rank fuel AtRange (fst lst + interval) later
      (cs ++ [(fst lst + interval, snd lst)]).
Proof.
  induction q as [|[t v] q IH]; intros later fuel ev now cs H0 Hb lst Hc Hd.
  - subst lst. simpl in *. apply select_fires; assumption.
  - destruct Hb as (H1 & H2 & H3).
    assert (Hl : lst = List.last q (t, v)).
    { subst lst. apply last_cons_default. }
    rewrite Hl in *. clear Hl lst.
    pose proof (burst_last q t v H3) as Hge.
    cbn [length Nat.add app].
    rewrite select_receives; try assumption.
    + apply IH; assumption.
    + destruct (doneAt tl); simpl in *; [lia|exact I].
Qed.

(** The channel closed while Debounce is at [range]: it returns, and the
    handler is not called. *)
Lemma Debounce_returns_on_close_at_range fuel now cs c :
  closeAt tl = Some c ->
  debounce_from interval tl rank (S fuel) AtRange now [] cs
  = {| status := Returned; calls := cs; clock := Z.max now c |}.
Proof. intros H. cbn [debounce_from]. rewrite H. reflexivity. Qed.

(** The context cancelled while an event is pending, before the timer
    fires and with nothing to receive: Debounce returns, and the handler is
    not called with the pending event. *)
Lemma Debounce_returns_on_cancel_in_select fuel ev now cs d :
  0 < interval -> doneAt tl = Some d -> d < now + interval ->
  quiet_through (Z.max now d) (closeAt tl) ->
  debounce_from interval tl rank (S fuel) (AtSelect ev) now [] cs
  = {| status := Returned; calls := cs; clock := Z.max now d |}.
Proof.
  intros H0 Hd Hlt Hq. cbn [debounce_from chan_ready]. rewrite Hd.
  unfold NewTimer.
  destruct (closeAt tl) as [c|];
    cbn [from_now earliest ready_at quiet_through] in *;
    repeat match goal with
    | |- context [Z.min ?a ?b] =>
      first [replace (Z.min a b) with b by lia | replace (Z.min a b) with a by lia]
    end;
    rewrite ?Z.leb_refl;
    repeat match goal with
    | |- context [?a <=? ?b] => destruct (Z.leb_spec a b); [lia|]
    end;
    reflexivity.
Qed.

(** The channel closed while an event is pending: every receive yields nil
    at once, the timer is re-armed each time and never fires, and without a
    cancellation the inner loop goes on for ever. *)
Lemma Debounce_spins_on_closed_channel fuel : forall ev now cs c,
  0 < interval -> closeAt tl = Some c -> c <= now -> doneAt tl = None ->
  debounce_from interval tl rank fuel (AtSelect ev) now [] cs
  = {| status := Running; calls := cs; clock := now |}.
Proof.
  induction fuel as [|fuel IH]; intros ev now cs c H0 Hc Hle Hd; [reflexivity|].
  cbn [debounce_from chan_ready]. rewrite Hc, Hd. unfold NewTimer.
  cbn [from_now earliest ready_at].
  replace (Z.max now c) with now by lia.
  replace (Z.min (now + Z.max 0 interval) now) with now by lia.
  rewrite Z.leb_refl.
  destruct (Z.leb_spec (now + Z.max 0 interval) now); [lia|].
  cbn [app choose fold_left]. apply (IH None now cs c); assumption.
Qed.

End DebounceFacts.

(** [C8] A burst of events, each less than the interval after the previous
    one, followed by quiet (no further event, no close and no cancellation
    until after the timer has fired): the handler is called exactly once for
    the burst, one interval after its last event and with that last event,
    and Debounce is back at [range] with the later events still to come.
    When there are none, that call is the only one, and Debounce stays
    blocked at [range], or has returned if the channel is closed later. *)
Theorem Debounce_coalesces_burst {V : Type} (interval : Z) (tl : Timeline V)
    (rank : nat -> Case -> nat) (fuel : nat)
    (t0 : Z) (v0 : iface V) (rest later : list (Z * iface V)) :
  0 <= interval ->
  sends tl = (t0, v0) :: rest ++ later ->
  startAt tl <= t0 ->
  burst interval t0 rest ->
  let fired := fst (List.last rest (t0, v0)) + interval in
  let latest := snd (List.last rest (t0, v0)) in
  quiet_through fired (chan_ready tl later) ->
  quiet_through fired (doneAt tl) ->
  Debounce interval tl rank (length rest + 2 + fuel)
  = debounce_from interval tl rank fuel AtRange fired later [(fired, latest)] /\
  (later = [] ->
   calls (Debounce interval tl rank (length rest + 3 + fuel)) = [(fired, latest)] /\
   status (Debounce interval tl rank (length rest + 3 + fuel))
   = match closeAt tl with Some _ => Returned | None => Blocked end).
Proof.
  intros H0 Hs Hst Hb fired latest Hc Hd.
  assert (Hrun : forall n,
    Debounce interval tl rank (length rest + 2 + n)
    = debounce_from interval tl rank n AtRange fired later [(fired, latest)]).
  { intros n. unfold Debounce. rewrite Hs.
    replace (length rest + 2 + n)%nat with (S (length rest + 1 + n)) by lia.
    cbn [debounce_from]. replace (Z.max (startAt tl) t0) with t0 by lia.
    apply (debounce_burst interval tl rank rest later n v0 t0 []); assumption. }
  split; [apply Hrun|].
  intros ->. replace (length rest + 3 + fuel)%nat with (length rest + 2 + S fuel)%nat by lia.
  rewrite Hrun. cbn [debounce_from].
  destruct (closeAt tl); split; reflexivity.
Qed.

Lemma Debounce_coalesces_burst_witness :
  calls (Debounce (ms 50) three_events (fun _ _ => 0%nat) 5)
  = [(ms 70, Some 3%nat)] /\
  status (Debounce (ms 50) three_events (fun _ _ => 0%nat) 5) = Blocked.
Proof.
  apply (Debounce_coalesces_burst (ms 50) three_events (fun _ _ => 0%nat) 0
           (ms 0) (Some 1%nat) [(ms 10, Some 2%nat); (ms 20, Some 3%nat)] []);
    try reflexivity; try exact I; simpl; unfold ms; lia.
Defined.

Example Debounce_two_bursts :
  Debounce (ms 50) two_bursts (fun _ _ => 0%nat) 9
  = {| status := Returned;
       calls := [(ms 70, Some 3%nat); (ms 260, Some 5%nat)];
       clock := ms 400 |}.
Proof. reflexivity. Qed.

(** [C9] At the failing inputs.  An event at 0 and the channel closed at
    10 ms, interval 50 ms, no cancellation: however long it runs, Debounce is
    still running, without a call of the handler.  No event and the context
    cancelled at 5 ms: Debounce stays blocked in [range]. *)
Theorem Debounce_misses_close_and_cancel (rank : nat -> Case -> nat) (fuel : nat) :
  Debounce (ms 50) closed_while_pending rank fuel
  = {| status := Running; calls := [];
       clock := if (fuel <=? 1)%nat then 0 else ms 10 |} /\
  Debounce (ms 50) cancelled_while_idle rank (S fuel)
  = {| status := Blocked; calls := []; clock := 0 |}.
Proof.
  split; [|reflexivity].
  destruct fuel as [|[|fuel]]; [reflexivity|reflexivity|].
  transitivity (debounce_from (ms 50) closed_while_pending rank fuel
                  (AtSelect None) (ms 10) [] []); [reflexivity|].
  apply (Debounce_spins_on_closed_channel (ms 50) closed_while_pending rank fuel
           None (ms 10) [] (ms 10)); unfold ms; (reflexivity || lia).
Qed.

(** ** More on node construction *)

Section StartDB.

Variable E : Externals.
Variable cli : CliContext.

(** [X1] startDB leaves the node alone when it fails and stores the handle, and
    nothing else, when it succeeds; it only ever appends to the log. *)
Theorem startDB_stores_handle_on_success (o : OrchestratorNode) (lg : list LogEntry) :
  let r := startDB E cli o lg in
  (fst (fst r) <> None -> snd (fst r) = o) /\
  (fst (fst r) = None ->
   snd (fst r) = set_db o (Some (startDB_handle E cli o))) /\
  (exists more, snd r = lg ++ more).
Proof.
  unfold startDB, startDB_handle. cbv zeta.
  repeat break_match; simpl; repeat split; try congruence;
    rewrite <- ?app_assoc; eauto.
Qed.

(** [X2] What startDB logs tells how far it got: the check of the path always,
    the removal warning exactly when the storage opened and the removal is
    forced, or requested and confirmed without error. *)
Theorem startDB_removes_only_when_forced_or_confirmed
    (o : OrchestratorNode) (lg : list LogEntry) :
  snd (startDB E cli o lg)
  = lg ++ logf InfoLevel
            [("database-path",
              FStr (filepath_Join E (DataDirFlag cli) (OrchestratorNodeDbDirName E)))]
            "Checking DB"
       :: (if removes_database E cli
           then [logf WarningLevel [] "Removing database"]
           else []).
Proof.
  unfold startDB, removes_database. cbv zeta.
  destruct (NewDB_first E); simpl; [reflexivity|].
  destruct (ClearDB cli), (ForceClearDB cli); simpl;
    try destruct (ConfirmAction E) as [[] [e|]]; simpl;
    repeat break_match; simpl; rewrite <- ?app_assoc; reflexivity.
Qed.

(** [X3] With the removal forced, the confirmation is not asked for: whatever
    it would answer, startDB does the same. *)
Theorem startDB_forced_skips_confirmation
    (c : bool * option Error) (o : OrchestratorNode) (lg : list LogEntry) :
  ForceClearDB cli = true ->
  startDB (with_ConfirmAction c E) cli o lg = startDB E cli o lg.
Proof.
  intros Hf. unfold startDB. cbv zeta. simpl. rewrite Hf.
  rewrite andb_false_r. reflexivity.
Qed.

End StartDB.

Lemma startDB_stores_handle_on_success_witness :
  snd (fst (startDB all_succeed (with_flags true true) empty_node []))
  = set_db empty_node
      (Some (startDB_handle all_succeed (with_flags true true) empty_node)).
Proof.
  destruct (startDB_stores_handle_on_success all_succeed (with_flags true true)
              empty_node []) as (_ & H & _).
  exact (H eq_refl).
Defined.

Lemma startDB_forced_skips_confirmation_witness :
  startDB (with_ConfirmAction (false, Some (ExternalError "no terminal")) all_succeed)
    (with_flags true true) empty_node []
  = startDB all_succeed (with_flags true true) empty_node [].
Proof.
  apply (startDB_forced_skips_confirmation all_succeed (with_flags true true)).
  reflexivity.
Defined.


Section NewShape.

Variable E : Externals.
Variable cli : CliContext.

Lemma startDB_success_node o lg o1 l1 :
  startDB E cli o lg = (None, o1, l1) ->
  o1 = set_db o (Some (startDB_handle E cli o)).
Proof.
  unfold startDB, startDB_handle. cbv zeta.
  repeat break_match; simpl; intros [= <- <-]; reflexivity.
Qed.

(** The three ways [New] can go. *)
Lemma New_cases :
  match startDB E cli (initial_node cli) [] with
  | (Some e, _, l) => New E cli = failed e l
  | (None, o1, _) =>
    match vanguardchain_NewService E with
    | Some _ =>
      new_node (New E cli) = None /\
      new_err (New E cli) = Some (ServiceNotFoundError VanguardChain) /\
      consensus_goroutine (New E cli) = false
    | None =>
      new_node (New E cli) = Some (set_services o1 (registered_by_New E cli o1)) /\
      new_err (New E cli) = None /\
      consensus_goroutine (New E cli) = true
    end
  end.
Proof.
  destruct (startDB E cli (initial_node cli) []) as [[e1 o1] l1] eqn:Hs.
  unfold New. fold (initial_node cli).
  change (cliCtx (initial_node cli)) with cli. rewrite Hs.
  destruct e1 as [e1|]; [reflexivity|].
  apply startDB_success_node in Hs. subst o1.
  unfold registered_by_New, vanguard_of, pandora_of, rpc_of.
  unfold registerVanguardChainService, registerPandoraChainService,
    registerRPCService.
  destruct (vanguardchain_NewService E); simpl.
  - destruct (pandorachain_NewService E); simpl; repeat split; reflexivity.
  - destruct (pandorachain_NewService E); simpl;
      destruct (negb _); destruct (rpc_NewService E); repeat split; reflexivity.
Qed.

(** [X4] [New] fails exactly when startDB fails or the vanguard service cannot
    be constructed.  The error of startDB is returned as it is; the error of
    the vanguard constructor is not: the caller gets the
    [ServiceNotFoundError] of the later fetch.  A node is returned exactly
    when no error is, and exactly then the goroutine is started. *)
Theorem New_fails_iff_storage_or_vanguard :
  new_err (New E cli)
  = match startDB_err E cli with
    | Some e => Some e
    | None => match vanguardchain_NewService E with
              | Some _ => Some (ServiceNotFoundError VanguardChain)
              | None => None
              end
    end /\
  (new_node (New E cli) = None <-> new_err (New E cli) <> None) /\
  consensus_goroutine (New E cli) = is_nil (new_err (New E cli)).
Proof.
  pose proof New_cases as H. unfold startDB_err.
  destruct (startDB E cli (initial_node cli) []) as [[[e1|] o1] l1]; simpl.
  - rewrite H. simpl. repeat split; congruence.
  - destruct (vanguardchain_NewService E); destruct H as (Hn & He & Hg);
      rewrite Hn, He, Hg; repeat split; congruence.
Qed.

(** [X5] The registry of the node [New] returns: the vanguard service first,
    then the pandora service if it could be constructed, then the RPC
    service if it could be constructed. *)
Theorem New_registration_order (o : OrchestratorNode) :
  new_node (New E cli) = Some o ->
  map fst (services o)
  = VanguardChain
    :: (if is_nil (pandorachain_NewService E) then [PandoraChain] else [])
    ++ (if is_nil (rpc_NewService E) then [RPC] else []).
Proof.
  intros Hn. pose proof New_cases as H.
  destruct (startDB E cli (initial_node cli) []) as [[[e1|] o1] l1].
  - rewrite H in Hn. discriminate.
  - destruct (vanguardchain_NewService E); destruct H as (Hn' & _);
      rewrite Hn' in Hn; [discriminate|]. injection Hn as <-.
    unfold registered_by_New. simpl.
    destruct (pandorachain_NewService E), (rpc_NewService E); reflexivity.
Qed.

(** [X6] Every service in the node [New] returns was constructed with the node's
    own context and with the handle startDB stored in the node, and the
    RPC service reads the consensus info from the registered vanguard
    service. *)
Theorem New_wires_services_to_node (o : OrchestratorNode) :
  new_node (New E cli) = Some o ->
  db o = Some (startDB_handle E cli (initial_node cli)) /\
  Forall (fun p => service_ctx (snd p) = ctx o /\ service_db (snd p) = db o)
         (services o) /\
  (forall s feed, lookup_variant (services o) RPC = Some s ->
     ConsensusInfoFeed_of s = Some feed ->
     lookup_variant (services o) VanguardChain = Some feed).
Proof.
  intros Hn. pose proof New_cases as H.
  destruct (startDB E cli (initial_node cli) []) as [[[e1|] o1] l1] eqn:Hs.
  - rewrite H in Hn. discriminate.
  - destruct (vanguardchain_NewService E); destruct H as (Hn' & _);
      rewrite Hn' in Hn; [discriminate|]. injection Hn as <-.
    apply startDB_success_node in Hs. subst o1.
    unfold registered_by_New, vanguard_of, pandora_of, rpc_of.
    destruct (pandorachain_NewService E), (rpc_NewService E); simpl;
      (split; [reflexivity|]); (split; [repeat constructor|]);
      intros s feed Hl Hf; try discriminate;
      injection Hl as <-; injection Hf as <-; reflexivity.
Qed.

End NewShape.

Lemma New_registration_order_witness :
  map fst (services degraded_node) = [VanguardChain; RPC].
Proof.
  apply (New_registration_order pandora_fails cli0 degraded_node). reflexivity.
Defined.

Lemma New_wires_services_to_node_witness :
  db healthy_node = Some (startDB_handle all_succeed cli0 (initial_node cli0)) /\
  Forall (fun p => service_ctx (snd p) = ctx healthy_node /\
                   service_db (snd p) = db healthy_node)
         (services healthy_node) /\
  (forall s feed, lookup_variant (services healthy_node) RPC = Some s ->
     ConsensusInfoFeed_of s = Some feed ->
     lookup_variant (services healthy_node) VanguardChain = Some feed).
Proof.
  apply (New_wires_services_to_node all_succeed cli0 healthy_node). reflexivity.
Defined.

(** ** More on the gate and the consensus service *)

Section GateMore.


(** From one lock cleared, by [f], on: the log grows by the entry of the
    other feed and the closing entry when the other feed delivers, and not
    at all otherwise. *)
Lemma gate_loop_one_cleared f evs : forall n lg,
  gate_log (gate_loop (fst (armed_except f)) (snd (armed_except f)) n lg evs)
  = lg ++ (if existsb (Feed_eqb (other f)) evs
           then [received (other f); unchained_all] else []).
Proof.
  induction evs as [|g evs IH]; intros n lg; [simpl; rewrite app_nil_r; reflexivity|].
  destruct f, g; cbn [gate_loop gate_body armed_except fst snd negb andb
                      existsb Feed_eqb other orb gate_log];
    rewrite ?IH, ?app_nil_r, <- ?app_assoc; reflexivity.
Qed.

(** [X8] What the gate logs: nothing before the first delivery; the entry of the
    feed that delivers first; and, once the other feed has delivered, its
    entry and the closing entry.  Repeated deliveries on a feed log
    nothing. *)
Theorem gate_logs_each_feed_once (evs : list Feed) :
  gate_log (gate evs)
  = match evs with
    | [] => []
    | f :: rest =>
      received f :: (if existsb (Feed_eqb (other f)) rest
                     then [received (other f); unchained_all] else [])
    end.
Proof.
  destruct evs as [|f rest]; [reflexivity|].
  unfold gate. destruct f.
  - apply (gate_loop_one_cleared vanguardHeadersChan rest 1 [received vanguardHeadersChan]).
  - apply (gate_loop_one_cleared vanguardConsensusInfoChan rest 1
             [received vanguardConsensusInfoChan]).
Qed.

Lemma registered_FetchService_inl r v :
  registered r v = true -> exists s, FetchService r v = inl s.
Proof.
  unfold registered, FetchService. destruct (lookup_variant r v); [eauto|discriminate].
Qed.

(** [X9] registerConsensusService does nothing to the node but append the
    consensus service to the registry, and that exactly when both upstream
    services are registered, the gate is left, and no consensus service is
    registered yet. *)
Theorem registerConsensusService_appends_at_most_one
    (cli : CliContext) (evs : list Feed) (o : OrchestratorNode) (lg : list LogEntry) :
  let o' := snd (fst (registerConsensusService cli evs o lg)) in
  cliCtx o' = cliCtx o /\ ctx o' = ctx o /\ db o' = db o /\
  services o'
  = (if registered (services o) VanguardChain
        && registered (services o) PandoraChain
        && unchained evs
        && negb (registered (services o) Consensus)
     then services o ++ [(Consensus, ConsensusService (cli_Context cli) (db o))]
     else services o).
Proof.
  unfold registerConsensusService, unchained, register, RegisterService, registered.
  cbn [variant_of]. unfold FetchService.
  destruct (lookup_variant (services o) VanguardChain); simpl; [|auto].
  destruct (lookup_variant (services o) PandoraChain); simpl; [|auto].
  destruct (gate evs); simpl; [|auto].
  destruct (lookup_variant (services o) Consensus); simpl; auto.
Qed.

(** [X10] When a consensus service is registered already, a run that gets
    through the gate constructs another one, is refused by the registry,
    and logs that as its last entry. *)
Theorem registerConsensusService_duplicate
    (cli : CliContext) (evs : list Feed) (o : OrchestratorNode) (lg : list LogEntry) :
  registered (services o) VanguardChain = true ->
  registered (services o) PandoraChain = true ->
  registered (services o) Consensus = true ->
  unchained evs = true ->
  exists n,
    registerConsensusService cli evs o lg
    = (Constructed (ConsensusService (cli_Context cli) (db o)) n
         (Some (DuplicateServiceError Consensus)),
       o,
       lg ++ gate_log (gate evs)
          ++ [logf ErrorLevel [("err", FErr (DuplicateServiceError Consensus))]
                   "Consensus service not registered"]).
Proof.
  intros Hv Hp Hc Hu.
  apply registered_FetchService_inl in Hv as [sv Hv].
  apply registered_FetchService_inl in Hp as [sp Hp].
  unfold registerConsensusService, unchained, register, RegisterService in *.
  rewrite Hv, Hp. cbn [variant_of].
  unfold registered in Hc.
  destruct (gate evs) as [n lg'|]; [|discriminate].
  destruct (lookup_variant (services o) Consensus); [|discriminate].
  exists n. simpl. rewrite <- app_assoc.
  destruct o; reflexivity.
Qed.

End GateMore.

Lemma registerConsensusService_duplicate_witness :
  exists n,
    registerConsensusService cli0 [vanguardHeadersChan; vanguardConsensusInfoChan]
      complete_node []
    = (Constructed (ConsensusService (cli_Context cli0) (db complete_node)) n
         (Some (DuplicateServiceError Consensus)),
       complete_node,
       [] ++ gate_log (gate [vanguardHeadersChan; vanguardConsensusInfoChan])
          ++ [logf ErrorLevel [("err", FErr (DuplicateServiceError Consensus))]
                   "Consensus service not registered"]).
Proof.
  apply (registerConsensusService_duplicate cli0
           [vanguardHeadersChan; vanguardConsensusInfoChan] complete_node []);
    reflexivity.
Defined.

(** ** More on Start, Close and the handler *)

Section LifecycleMore.

Lemma count_if_le f g l :
  (forall pc, f pc = true -> g pc = true) ->
  (count_if f l <= count_if g l)%nat.
Proof.
  intros H. induction l as [|pc l IH]; simpl; [lia|].
  destruct (f pc) eqn:Hf; [rewrite (H pc Hf)|destruct (g pc)]; lia.
Qed.

Lemma count_if_le_length f l : (count_if f l <= length l)%nat.
Proof. induction l as [|pc l IH]; simpl; [lia|]. destruct (f pc); lia. Qed.

(** [X11] In every reachable state the calls made by [Close] are in their order:
    the stop channel has been closed no more often than [cancel] was
    called, and [cancel] no more often than [StopAll]. *)
Theorem Close_stops_then_cancels_then_closes (sched : list Label) :
  let m := run sched init in
  (stop_closes m <= cancel_calls m)%nat /\
  (cancel_calls m <= StopAll_calls m)%nat.
Proof.
  intros m. subst m.
  destruct (Inv_run sched init Inv_init) as [I1 I2 I3 I4 I5 I6 I7 I8 I9 I10].
  rewrite I5, I6, I7. split; apply count_if_le; intros []; simpl; congruence.
Qed.

Lemma StartInv_init : StartInv init.
Proof. constructor; simpl; [discriminate|congruence]. Qed.

Lemma StartInv_step l m : StartInv m -> StartInv (step l m).
Proof.
  intros Hm. pose proof Hm as [H1 H2].
  unfold step. destruct (exit m); [exact Hm|].
  destruct l as [[| |k]| |].
  - unfold step_Start.
    destruct (start_pc m) eqn:Hpc;
      [destruct (is_free (lock m))| | | |destruct (stop_closed m) eqn:Hs|];
      try exact Hm;
      constructor; simpl; rewrite ?Hpc, ?Hs; auto; try discriminate;
      intros Hh; destruct (H2 Hh); congruence.
  - unfold step_Handler.
    destruct (handler m) as [pc|] eqn:Hh; [|exact Hm].
    assert (Hpc : start_pc m = SWait \/ start_pc m = SReturned)
      by (apply H2; congruence).
    destruct pc; [constructor; simpl; auto| | |];
      (destruct (sigc m); [|exact Hm]);
      destruct (panicked _); try (destruct (go_Close _));
      constructor; simpl; auto.
  - unfold step_Close.
    destruct (closers m !! k) as [[]|];
      [destruct (is_free (lock m))| | |destruct (stop_closed m) eqn:Hs| | | |];
      try exact Hm;
      constructor; simpl; rewrite ?Hs; auto.
  - destruct (notified _); constructor; simpl; auto.
  - constructor; simpl; auto.
Qed.

Lemma StartInv_run sched : forall m, StartInv m -> StartInv (run sched m).
Proof.
  induction sched as [|l sched IH]; intros m H; simpl; [exact H|].
  apply IH, StartInv_step, H.
Qed.

(** [X12] When [Start] has returned, the stop channel is closed, [StopAll] and
    [cancel] have been called, and [StartAll] was called exactly once. *)
Theorem Start_returns_after_shutdown (sched : list Label) :
  start_pc (run sched init) = SReturned ->
  let m := run sched init in
  stop_closed m = true /\ (1 <= StopAll_calls m)%nat /\
  (1 <= cancel_calls m)%nat /\ StartAll_calls m = 1%nat.
Proof.
  intros Hr m. subst m.
  pose proof (Inv_run sched init Inv_init) as I.
  pose proof (StartInv_run sched init StartInv_init) as [H1 _].
  specialize (H1 Hr).
  pose proof (inv_stop _ I) as Hs. rewrite H1 in Hs.
  pose proof (inv_StartAll _ I) as Ha. rewrite Hr in Ha.
  assert (Hc : (stop_closes (run sched init) <= cancel_calls (run sched init))%nat).
  { rewrite (inv_closes _ I), (inv_cancel _ I).
    apply count_if_le; intros []; simpl; congruence. }
  assert (Hd : (cancel_calls (run sched init) <= StopAll_calls (run sched init))%nat).
  { rewrite (inv_cancel _ I), (inv_StopAll _ I).
    apply count_if_le; intros []; simpl; congruence. }
  repeat split; try assumption; lia.
Qed.

(** [X13] The handler goroutine exists only once [Start] has called [StartAll]
    and released the lock. *)
Theorem handler_installed_after_StartAll (sched : list Label) :
  handler (run sched init) <> None ->
  StartAll_calls (run sched init) = 1%nat /\
  lock (run sched init) <> Some TStart.
Proof.
  intros Hh.
  pose proof (Inv_run sched init Inv_init) as I.
  pose proof (StartInv_run sched init StartInv_init) as [_ H2].
  specialize (H2 Hh). split.
  - rewrite (inv_StartAll _ I). destruct H2 as [-> | ->]; reflexivity.
  - intros Hl. apply (inv_start _ I) in Hl.
    destruct H2 as [H2|H2]; rewrite H2 in Hl; discriminate.
Qed.

(** [X14] While [Start] is between its [Lock] and its [Unlock], no invocation of
    [Close] is between its own: [StopAll] cannot run while [StartAll]
    does. *)
Theorem Start_excludes_Close (sched : list Label) (k : nat) (pc : ClosePc) :
  holds_lock (start_pc (run sched init)) = true ->
  closers (run sched init) !! k = Some pc ->
  in_critical pc = false.
Proof.
  intros Hh Hk.
  pose proof (Inv_run sched init Inv_init) as I.
  apply (inv_start _ I) in Hh.
  destruct (in_critical pc) eqn:Hc; [|reflexivity].
  apply (inv_closer _ I k pc Hk) in Hc. congruence.
Qed.

Lemma no_Close_panic_step l m :
  is_CallClose l = false -> Inv m -> HandlerInv m ->
  no_Close_panic m -> no_Close_panic (step l m).
Proof.
  intros Hl I [H1 H2] Hn. unfold step. destruct (exit m) eqn:He; [exact Hn|].
  destruct l as [[| |k]| |]; try discriminate.
  - unfold step_Start.
    destruct (start_pc m); [destruct (is_free (lock m))| | | |
                            destruct (stop_closed m)|];
      intros j; simpl; rewrite ?He; discriminate.
  - unfold step_Handler.
    destruct (handler m) as [[]|]; try (destruct (sigc m));
      try (destruct (panicked _)); try (destruct (go_Close _));
      intros j; simpl; rewrite ?He; discriminate.
  - unfold step_Close.
    destruct (closers m !! k) as [pc|] eqn:Hk; [|exact Hn].
    destruct pc; [destruct (is_free (lock m))| | | | | |];
      try (intros j; simpl; rewrite ?He; discriminate).
    (* CCloseStop: the one invocation finds the channel open *)
    assert (Hc : closers m = [CCloseStop]).
    { pose proof (lookup_lt_Some _ _ _ Hk) as Hlt.
      destruct (handler m) as [[]|]; try (rewrite H1 in Hk; discriminate);
        destruct (closers m) as [|pc [|]]; try discriminate;
        simpl in Hlt; (destruct k; [simpl in Hk; congruence|lia]). }
    assert (Hs : lock m <> Some TStart).
    { intros Hs. pose proof (proj1 (inv_closer m I k _ Hk) eq_refl). congruence. }
    destruct (single_closer m _ I Hc Hs) as [_ Hst]. rewrite Hst. simpl.
    intros j; simpl; rewrite ?He; discriminate.
  - destruct (notified _); intros j; simpl; rewrite ?He; discriminate.
Qed.

(** [X15] When only the handler invokes [Close], there is at most one invocation
    of it, however many signals arrive; it never panics in [close(b.stop)];
    [StopAll] and [cancel] are called at most once and the stop channel is
    closed at most once. *)
Theorem handler_invokes_Close_once (sched : list Label) :
  handler_only sched = true ->
  let m := run sched init in
  (length (closers m) <= 1)%nat /\
  no_Close_panic m /\
  (StopAll_calls m <= 1)%nat /\ (cancel_calls m <= 1)%nat /\
  (stop_closes m <= 1)%nat.
Proof.
  intros Hs m. subst m.
  assert (H : forall sched m, handler_only sched = true ->
            Inv m -> HandlerInv m -> no_Close_panic m ->
            Inv (run sched m) /\ HandlerInv (run sched m) /\
            no_Close_panic (run sched m)).
  { clear. unfold handler_only.
    induction sched as [|l sched IH]; intros m Hs I Hh Hn; simpl in *; [auto|].
    apply negb_true_iff, orb_false_iff in Hs as [Hl Hs].
    apply IH; [rewrite Hs; reflexivity|apply Inv_step, I
              |apply HandlerInv_step; assumption
              |apply no_Close_panic_step; assumption]. }
  destruct (H sched init Hs Inv_init HandlerInv_init) as (I & [H1 _] & Hn).
  { intros k. discriminate. }
  assert (Hlen : (length (closers (run sched init)) <= 1)%nat).
  { destruct (handler (run sched init)) as [[]|]; rewrite H1; simpl; lia. }
  pose proof (count_if_le_length past_StopAll (closers (run sched init))).
  pose proof (count_if_le_length past_cancel (closers (run sched init))).
  pose proof (count_if_le_length past_close (closers (run sched init))).
  rewrite (inv_StopAll _ I), (inv_cancel _ I), (inv_closes _ I).
  repeat split; try assumption; lia.
Qed.


(** [X17] Once the stop channel is closed and no invocation of [Close] holds the
    lock, [Start] runs through without waiting: it takes the lock, calls
    [StartAll], starts the handler and returns; nothing stops the services
    it has just started. *)
Theorem Start_after_Close_returns_at_once (sched : list Label) :
  let m := run sched init in
  start_pc m = SLock -> exit m = None -> stop_closed m = true ->
  (forall k pc, closers m !! k = Some pc -> in_critical pc = false) ->
  let m' := run Start_alone m in
  start_pc m' = SReturned /\ StartAll_calls m' = 1%nat /\
  StopAll_calls m' = StopAll_calls m /\ handler m' = Some HNotify.
Proof.
  intros m Hpc He Hs Hc. subst m.
  pose proof (Inv_run sched init Inv_init) as I.
  pose proof (StartInv_run sched init StartInv_init) as [_ H2].
  set (m := run sched init) in *.
  assert (Hl : lock m = None).
  { destruct (lock m) as [[| |k]|] eqn:Hl; [| | |reflexivity].
    - apply (inv_start m I) in Hl. rewrite Hpc in Hl. discriminate.
    - destruct (inv_handler m I Hl).
    - pose proof (inv_owner m I k Hl) as Hk.
      apply lookup_lt_is_Some in Hk as [pc Hk].
      pose proof (Hc k pc Hk) as Hcr.
      apply (inv_closer m I k pc Hk) in Hl. congruence. }
  pose proof (inv_StartAll m I) as Ha. rewrite Hpc in Ha.
  clearbody m. clear I H2 Hc.
  destruct m as [lk sc sg n1 n2 n3 n4 spc h cl ex]. simpl in *. subst.
  repeat split; reflexivity.
Qed.

End LifecycleMore.

Lemma Start_returns_after_shutdown_witness :
  stop_closed (run (Start_then_signal ++ drain) init) = true /\
  (1 <= StopAll_calls (run (Start_then_signal ++ drain) init))%nat /\
  (1 <= cancel_calls (run (Start_then_signal ++ drain) init))%nat /\
  StartAll_calls (run (Start_then_signal ++ drain) init) = 1%nat.
Proof.
  apply (Start_returns_after_shutdown (Start_then_signal ++ drain)). reflexivity.
Defined.

Lemma handler_installed_after_StartAll_witness :
  StartAll_calls (run boot init) = 1%nat /\ lock (run boot init) <> Some TStart.
Proof.
  apply (handler_installed_after_StartAll boot). discriminate.
Defined.

Lemma Start_excludes_Close_witness :
  holds_lock (start_pc (run Start_holds_lock init)) = true /\
  closers (run Start_holds_lock init) !! 0%nat = Some CLock /\
  in_critical CLock = false.
Proof.
  split; [reflexivity|]. split; [reflexivity|].
  apply (Start_excludes_Close Start_holds_lock 0 CLock); reflexivity.
Defined.

Lemma handler_invokes_Close_once_witness :
  (length (closers (run (boot ++ signals 5 ++ drain) init)) <= 1)%nat /\
  no_Close_panic (run (boot ++ signals 5 ++ drain) init) /\
  (StopAll_calls (run (boot ++ signals 5 ++ drain) init) <= 1)%nat /\
  (cancel_calls (run (boot ++ signals 5 ++ drain) init) <= 1)%nat /\
  (stop_closes (run (boot ++ signals 5 ++ drain) init) <= 1)%nat.
Proof.
  apply (handler_invokes_Close_once (boot ++ signals 5 ++ drain)). reflexivity.
Defined.

Lemma Start_after_Close_returns_at_once_witness :
  start_pc (run Start_alone (run Close_once init)) = SReturned /\
  StartAll_calls (run Start_alone (run Close_once init)) = 1%nat /\
  StopAll_calls (run Start_alone (run Close_once init))
  = StopAll_calls (run Close_once init) /\
  handler (run Start_alone (run Close_once init)) = Some HNotify.
Proof.
  apply (Start_after_Close_returns_at_once Close_once); try reflexivity.
  intros [|[|k]] pc; simpl; intros [= <-]; reflexivity.
Defined.

(** ** More on Debounce *)

Section DebounceMore.

Context {V : Type}.
Variable interval : Z.
Variable tl : Timeline V.
Variable rank : nat -> Case -> nat.

Lemma separated_last_fired (bs : list (@Burst V)) : forall from,
  0 <= interval -> separated interval from bs -> from <= last_fired interval from bs.
Proof.
  induction bs as [|[[t0 v0] rest] bs IH]; intros from H0 Hs; [simpl; lia|].
  destruct Hs as (H1 & H2 & _ & H4).
  specialize (IH _ H0 H4).
  pose proof (burst_last interval rest t0 v0 H2) as Hb.
  unfold fired_at, first_at in *. cbn [last_fired fst snd fired_at] in *.
  unfold fired_at in *. cbn [fst snd] in *. lia.
Qed.

(** From [range], with bursts to come: one call of the handler for each,
    when its timer fires and with its last event. *)
Lemma debounce_bursts (bs : list (@Burst V)) : forall fuel now cs,
  0 <= interval ->
  separated interval now bs ->
  quiet_through (last_fired interval now bs) (closeAt tl) ->
  quiet_through (last_fired interval now bs) (doneAt tl) ->
  debounce_from interval tl rank (iterations bs + S fuel) AtRange now (all_events bs) cs
  = {| status := match closeAt tl with Some _ => Returned | None => Blocked end;
       calls := cs ++ map (fun b => (fired_at interval b, latest_of b)) bs;
       clock := match closeAt tl with
                | Some c => Z.max (last_fired interval now bs) c
                | None => last_fired interval now bs
                end |}.
Proof.
  induction bs as [|b bs IH]; intros fuel now cs H0 Hs Hc Hd.
  - simpl. rewrite app_nil_r. destruct (closeAt tl); reflexivity.
  - destruct Hs as (H1 & H2 & H3 & H4).
    pose proof (separated_last_fired bs _ H0 H4) as Hle.
    destruct b as [[t0 v0] rest]. unfold first_at in *. simpl in H1, H2, H3.
    cbn [all_events events_of fst snd iterations last_fired] in *.
    replace (length rest + 2 + iterations bs + S fuel)%nat
      with (S (length rest + 1 + (iterations bs + S fuel))) by lia.
    unfold events_of at 1. cbn [fst snd app debounce_from].
    replace (Z.max now t0) with t0 by lia.
    rewrite (debounce_burst interval tl rank rest (all_events bs)); try assumption.
    + unfold fired_at, latest_of in *. cbn [fst snd] in *.
      rewrite IH; try assumption.
      cbn [map]. rewrite <- app_assoc. reflexivity.
    + unfold fired_at in *. cbn [fst snd] in *.
      destruct bs as [|[[t1 v1] rest1] bs']; cbn [all_events events_of chan_ready].
      * simpl in Hc. exact Hc.
      * simpl. exact H3.
    + unfold fired_at in *. cbn [fst snd] in *.
      destruct (doneAt tl); simpl in *; [lia|exact I].
Qed.

(** With an event pending and the context cancelled before its timer
    fires: the events still to come are received up to the cancellation,
    then Debounce returns; the handler is not called. *)
Lemma debounce_cancelled (q : list (Z * iface V)) : forall fuel ev now cs d,
  0 < interval ->
  burst interval now q ->
  doneAt tl = Some d ->
  d < fst (List.last q (now, ev)) + interval ->
  quiet_through (Z.max d (fst (List.last q (now, ev)))) (closeAt tl) ->
  (length q < fuel)%nat ->
  status (debounce_from interval tl rank fuel (AtSelect ev) now q cs) = Returned /\
  calls (debounce_from interval tl rank fuel (AtSelect ev) now q cs) = cs.
Proof.
  induction q as [|[t v] q IH]; intros fuel ev now cs d H0 Hb Hd Hlt Hq Hf.
  - destruct fuel as [|fuel]; [simpl in Hf; lia|]. simpl in Hlt, Hq.
    cbn [debounce_from chan_ready]. rewrite Hd. unfold NewTimer.
    destruct (closeAt tl) as [c|];
      cbn [from_now earliest ready_at quiet_through] in *;
      repeat match goal with
      | |- context [Z.min ?a ?b] =>
        first [replace (Z.min a b) with b by lia | replace (Z.min a b) with a by lia]
      end;
      rewrite ?Z.leb_refl;
      repeat match goal with
      | |- context [?a <=? ?b] => destruct (Z.leb_spec a b); [lia|]
      end;
      split; reflexivity.
  - destruct Hb as (H1 & H2 & H3).
    rewrite last_cons_default in Hlt, Hq.
    pose proof (burst_last interval q t v H3) as Hge.
    destruct fuel as [|fuel]; [simpl in Hf; lia|].
    assert (Hrec : status (debounce_from interval tl rank fuel (AtSelect v) t q cs)
                   = Returned /\
                   calls (debounce_from interval tl rank fuel (AtSelect v) t q cs) = cs).
    { apply (IH fuel v t cs d); try assumption. simpl in Hf. lia. }
    cbn [debounce_from chan_ready]. rewrite Hd. unfold NewTimer.
    cbn [from_now earliest ready_at].
    replace (Z.max now t) with t by lia.
    replace (Z.max 0 interval) with interval by lia.
    destruct (Z.lt_trichotomy t (Z.max now d)) as [Hc|[Hc|Hc]].
    + replace (Z.min (Z.min (now + interval) t) (Z.max now d)) with t by lia.
      rewrite Z.leb_refl.
      destruct (Z.leb_spec (now + interval) t); [lia|].
      destruct (Z.leb_spec (Z.max now d) t); [lia|].
      exact Hrec.
    + replace (Z.min (Z.min (now + interval) t) (Z.max now d)) with t by lia.
      rewrite <- Hc, Z.leb_refl.
      destruct (Z.leb_spec (now + interval) t); [lia|].
      cbn [app choose fold_left]. unfold better.
      destruct (rank fuel CaseDone <? rank fuel CaseEvent)%nat;
        [split; reflexivity|exact Hrec].
    + replace (Z.min (Z.min (now + interval) t) (Z.max now d))
        with (Z.max now d) by lia.
      rewrite Z.leb_refl.
      destruct (Z.leb_spec t (Z.max now d)); [lia|].
      destruct (Z.leb_spec (now + interval) (Z.max now d)); [lia|].
      split; reflexivity.
Qed.

Lemma spaced_last (q : list (Z * iface V)) : forall prev ev,
  spaced prev q -> prev <= fst (List.last q (prev, ev)).
Proof.
  induction q as [|[t v] q IH]; intros prev ev H; [simpl; lia|].
  destruct H as (H1 & H2). rewrite last_cons_default.
  specialize (IH t v H2). lia.
Qed.

(** The select when the timer fires at once and nothing else is ready. *)
Lemma select_fires_at_once fuel ev now q cs :
  interval <= 0 ->
  quiet_through now (chan_ready tl q) ->
  quiet_through now (doneAt tl) ->
  debounce_from interval tl rank (S fuel) (AtSelect ev) now q cs
  = debounce_from interval tl rank fuel AtRange now q (cs ++ [(now, ev)]).
Proof.
  intros H0 H1 H2. cbn [debounce_from].
  unfold NewTimer. replace (Z.max 0 interval) with 0 by lia.
  rewrite Z.add_0_r.
  destruct (chan_ready tl q) as [c|], (doneAt tl) as [d|];
    cbn [from_now earliest ready_at quiet_through] in *;
    repeat match goal with
    | |- context [Z.min ?a ?b] =>
      first [replace (Z.min a b) with a by lia | replace (Z.min a b) with b by lia]
    end;
    rewrite ?Z.leb_refl;
    repeat match goal with
    | |- context [?a <=? ?b] => destruct (Z.leb_spec a b); [lia|]
    end;
    reflexivity.
Qed.

(** With a timer that fires at once: the pending event is handed to the
    handler at the moment it was received, and so is every event after
    it. *)
Lemma debounce_no_interval (q : list (Z * iface V)) : forall fuel ev now cs,
  interval <= 0 ->
  spaced now q ->
  quiet_through (fst (List.last q (now, ev))) (closeAt tl) ->
  quiet_through (fst (List.last q (now, ev))) (doneAt tl) ->
  debounce_from interval tl rank (2 * length q + 2 + fuel) (AtSelect ev) now q cs
  = {| status := match closeAt tl with Some _ => Returned | None => Blocked end;
       calls := cs ++ (now, ev) :: q;
       clock := match closeAt tl with
                | Some c => c
                | None => fst (List.last q (now, ev))
                end |}.
Proof.
  induction q as [|[t v] q IH]; intros fuel ev now cs H0 Hs Hc Hd.
  - simpl in Hc, Hd. cbn [length Nat.mul Nat.add].
    rewrite select_fires_at_once by assumption.
    cbn [debounce_from List.last fst].
    destruct (closeAt tl) as [c|]; [|reflexivity].
    simpl in Hc. replace (Z.max now c) with c by lia. reflexivity.
  - destruct Hs as (H1 & H2). rewrite last_cons_default in Hc, Hd.
    pose proof (spaced_last q t v H2) as Hge.
    replace (2 * length ((t, v) :: q) + 2 + fuel)%nat
      with (S (S (2 * length q + 2 + fuel))) by (simpl; lia).
    rewrite select_fires_at_once; try assumption.
    + cbn [debounce_from]. replace (Z.max now t) with t by lia.
      rewrite IH; try assumption.
      rewrite last_cons_default, <- app_assoc. reflexivity.
    + destruct (doneAt tl); simpl in *; [lia|exact I].
Qed.

End DebounceMore.

(** [X18] One call of the handler for each burst: when bursts follow each other
    with more than the interval between the last event of one and the first
    of the next, and the channel is not closed and the context not cancelled
    before the last timer has fired, the handler is called once per burst,
    one interval after the last event of the burst and with that event. *)
Theorem Debounce_once_per_burst {V : Type} (interval : Z) (tl : Timeline V)
    (rank : nat -> Case -> nat) (fuel : nat) (bs : list (@Burst V)) :
  0 <= interval ->
  sends tl = all_events bs ->
  separated interval (startAt tl) bs ->
  quiet_through (last_fired interval (startAt tl) bs) (closeAt tl) ->
  quiet_through (last_fired interval (startAt tl) bs) (doneAt tl) ->
  (iterations bs < fuel)%nat ->
  calls (Debounce interval tl rank fuel)
  = map (fun b => (fired_at interval b, latest_of b)) bs /\
  status (Debounce interval tl rank fuel)
  = match closeAt tl with Some _ => Returned | None => Blocked end.
Proof.
  intros H0 Hs Hsep Hc Hd Hf. unfold Debounce. rewrite Hs.
  replace fuel with (iterations bs + S (fuel - iterations bs - 1))%nat by lia.
  rewrite (debounce_bursts interval tl rank bs); try assumption.
  split; reflexivity.
Qed.

Lemma Debounce_once_per_burst_witness :
  calls (Debounce (ms 50) two_bursts (fun _ _ => 0%nat) 9)
  = [(ms 70, Some 3%nat); (ms 260, Some 5%nat)] /\
  status (Debounce (ms 50) two_bursts (fun _ _ => 0%nat) 9) = Returned.
Proof.
  apply (Debounce_once_per_burst (ms 50) two_bursts (fun _ _ => 0%nat) 9
           the_two_bursts); try reflexivity; simpl; unfold ms, fired_at, first_at;
    simpl; lia.
Defined.

(** [X19] Cancellation inside the window drops the pending event: when the
    context is cancelled before the timer of the last event of a burst
    fires, and the channel is not closed by then, Debounce returns and the
    handler has not been called at all. *)
Theorem Debounce_cancel_drops_pending {V : Type} (interval : Z) (tl : Timeline V)
    (rank : nat -> Case -> nat) (fuel : nat)
    (t0 d : Z) (v0 : iface V) (rest : list (Z * iface V)) :
  0 < interval ->
  sends tl = (t0, v0) :: rest ->
  startAt tl <= t0 ->
  burst interval t0 rest ->
  doneAt tl = Some d ->
  d < fst (List.last rest (t0, v0)) + interval ->
  quiet_through (Z.max d (fst (List.last rest (t0, v0)))) (closeAt tl) ->
  (length (sends tl) < fuel)%nat ->
  status (Debounce interval tl rank fuel) = Returned /\
  calls (Debounce interval tl rank fuel) = [].
Proof.
  intros H0 Hs Hst Hb Hd Hlt Hq Hf. unfold Debounce. rewrite Hs in *.
  destruct fuel as [|fuel]; [simpl in Hf; lia|].
  cbn [debounce_from]. replace (Z.max (startAt tl) t0) with t0 by lia.
  apply (debounce_cancelled interval tl rank rest fuel v0 t0 [] d); try assumption.
  simpl in Hf. lia.
Qed.

Lemma Debounce_cancel_drops_pending_witness :
  status (Debounce (ms 50) cancelled_in_window (fun _ _ => 0%nat) 4) = Returned /\
  calls (Debounce (ms 50) cancelled_in_window (fun _ _ => 0%nat) 4) = [].
Proof.
  apply (Debounce_cancel_drops_pending (ms 50) cancelled_in_window
           (fun _ _ => 0%nat) 4 (ms 0) (ms 60) (Some 1%nat)
           [(ms 10, Some 2%nat); (ms 20, Some 3%nat)]);
    try reflexivity; try exact I; simpl; unfold ms; lia.
Defined.

(** [X20] A non-positive interval disables the coalescing: with events at
    strictly increasing times, and the channel not closed and the context
    not cancelled until after the last of them, the handler is called for
    every event, at the moment it is received. *)
Theorem Debounce_without_interval {V : Type} (interval : Z) (tl : Timeline V)
    (rank : nat -> Case -> nat) (fuel : nat)
    (t0 : Z) (v0 : iface V) (rest : list (Z * iface V)) :
  interval <= 0 ->
  sends tl = (t0, v0) :: rest ->
  startAt tl <= t0 ->
  spaced t0 rest ->
  quiet_through (fst (List.last rest (t0, v0))) (closeAt tl) ->
  quiet_through (fst (List.last rest (t0, v0))) (doneAt tl) ->
  (2 * length (sends tl) < fuel)%nat ->
  calls (Debounce interval tl rank fuel) = sends tl /\
  status (Debounce interval tl rank fuel)
  = match closeAt tl with Some _ => Returned | None => Blocked end.
Proof.
  intros H0 Hs Hst Hsp Hc Hd Hf. unfold Debounce. rewrite Hs in *.
  simpl in Hf.
  replace fuel with (S (2 * length rest + 2 + (fuel - 2 * length rest - 3)))%nat
    by lia.
  cbn [debounce_from]. replace (Z.max (startAt tl) t0) with t0 by lia.
  rewrite (debounce_no_interval interval tl rank rest); try assumption.
  split; reflexivity.
Qed.

Lemma Debounce_without_interval_witness :
  calls (Debounce 0 three_events (fun _ _ => 0%nat) 7) = sends three_events /\
  status (Debounce 0 three_events (fun _ _ => 0%nat) 7) = Blocked.
Proof.
  apply (Debounce_without_interval 0 three_events (fun _ _ => 0%nat) 7
           (ms 0) (Some 1%nat) [(ms 10, Some 2%nat); (ms 20, Some 3%nat)]);
    try reflexivity; try exact I; simpl; unfold ms; lia.
Defined.
